(** * LewisAI-Tearing: storyboard extraction pipeline

    A shallow embedding of the deterministic core of the repository:
    - [utils/imageProcessing.ts]  (frame difference, sketch filter, box blur)
    - [utils/storyboardGenerator.ts] (page compositor, caption wrapping)
    - [components/VideoProcessor.tsx] (scene sampler)
    - [App.tsx] (CSV export, time formatting)

    JavaScript numbers are modelled as exact rationals extended with NaN
    and the two infinities.  Rounding of IEEE doubles is not modelled; the
    statements below are about values (small integers, halves, quotients
    of such) on which the double operations of the source are exact, or
    say so in their comment. *)

From Stdlib Require Import ZArith QArith Qcanon Qround Lia Lqa.
From Stdlib Require Import Ascii String DecimalString DecimalZ DecimalPos.
From stdpp Require Import base tactics numbers option list.

Local Open Scope Z_scope.

(* ================================================================== *)
(** ** JavaScript numbers *)
(* ================================================================== *)

Module JS.

Inductive number : Type :=
| Num (q : Qc)
| NaN
| PosInf
| NegInf.

Definition num (z : Z) : number := Num (Qc_of_Z z).
Definition ratio (a b : Z) : number := Num (Q2Qc (Qmake a (Z.to_pos b))).

Definition Qcltb (a b : Qc) : bool := bool_decide (a < b)%Qc.
Definition Qcleb (a b : Qc) : bool := bool_decide (a <= b)%Qc.
Definition Qceqb (a b : Qc) : bool := bool_decide (a = b).

Definition neg (a : number) : number :=
  match a with
  | Num q => Num (- q)%Qc
  | NaN => NaN
  | PosInf => NegInf
  | NegInf => PosInf
  end.

Definition add (a b : number) : number :=
  match a, b with
  | NaN, _ | _, NaN => NaN
  | Num x, Num y => Num (x + y)%Qc
  | PosInf, NegInf | NegInf, PosInf => NaN
  | PosInf, _ | _, PosInf => PosInf
  | NegInf, _ | _, NegInf => NegInf
  end.

Definition sub (a b : number) : number := add a (neg b).

(** Sign of a finite value; zero is taken as +0. *)
Definition scale_inf (pos : bool) (q : Qc) : number :=
  if Qceqb q 0%Qc then NaN
  else if Qcltb 0%Qc q then (if pos then PosInf else NegInf)
  else (if pos then NegInf else PosInf).

Definition mul (a b : number) : number :=
  match a, b with
  | NaN, _ | _, NaN => NaN
  | Num x, Num y => Num (x * y)%Qc
  | PosInf, Num q | Num q, PosInf => scale_inf true q
  | NegInf, Num q | Num q, NegInf => scale_inf false q
  | PosInf, PosInf | NegInf, NegInf => PosInf
  | PosInf, NegInf | NegInf, PosInf => NegInf
  end.

Definition div (a b : number) : number :=
  match a, b with
  | NaN, _ | _, NaN => NaN
  | Num x, Num y =>
      if Qceqb y 0%Qc then scale_inf true x
      else Num (x / y)%Qc
  | Num _, (PosInf | NegInf) => Num 0%Qc
  | (PosInf | NegInf), (PosInf | NegInf) => NaN
  | PosInf, Num y => if Qcltb y 0%Qc then NegInf else PosInf
  | NegInf, Num y => if Qcltb y 0%Qc then PosInf else NegInf
  end.

Definition abs (a : number) : number :=
  match a with
  | Num q => Num (if Qcltb q 0%Qc then - q else q)%Qc
  | NaN => NaN
  | PosInf | NegInf => PosInf
  end.

(** [a < b] of the language: false as soon as one side is NaN. *)
Definition lt (a b : number) : bool :=
  match a, b with
  | NaN, _ | _, NaN => false
  | Num x, Num y => Qcltb x y
  | NegInf, (Num _ | PosInf) => true
  | Num _, PosInf => true
  | _, _ => false
  end.

Definition gt (a b : number) : bool := lt b a.

Definition strict_eq (a b : number) : bool :=
  match a, b with
  | Num x, Num y => Qceqb x y
  | PosInf, PosInf | NegInf, NegInf => true
  | _, _ => false
  end.

(** [a >= b]. *)
Definition ge (a b : number) : bool := orb (gt a b) (strict_eq a b).

(** [Math.min(a, b)] and [Math.max(a, b)]. *)
Definition min (a b : number) : number :=
  match a, b with
  | NaN, _ | _, NaN => NaN
  | _, _ => if lt b a then b else a
  end.

Definition max (a b : number) : number :=
  match a, b with
  | NaN, _ | _, NaN => NaN
  | _, _ => if lt a b then b else a
  end.

(** [Math.floor]. *)
Definition floor (a : number) : number :=
  match a with
  | Num q => num (Qfloor q)
  | other => other
  end.

(** Conversion applied by a store into a [Uint8ClampedArray]: NaN becomes
    0, the value is clamped to 0..255 and rounded to the nearest integer,
    ties to the even one. *)
Definition round_half_even (q : Qc) : Z :=
  let f := Qfloor q in
  let frac := (q - Qc_of_Z f)%Qc in
  if Qcltb frac (Q2Qc (1 # 2)) then f
  else if Qcltb (Q2Qc (1 # 2)) frac then f + 1
  else if Z.even f then f else f + 1.

Definition toUint8Clamp (a : number) : Z :=
  match a with
  | NaN => 0
  | PosInf => 255
  | NegInf => 0
  | Num q =>
      if Qcleb q 0%Qc then 0
      else if Qcleb (Qc_of_Z 255) q then 255
      else round_half_even q
  end.

(** A read [a[i]] of a byte array used as an operand: an index past the
    end gives [undefined], which arithmetic turns into NaN. *)
Definition byte_at (a : list Z) (i : nat) : number :=
  match a !! i with
  | Some b => num b
  | None => NaN
  end.

(** A read of a [Float32Array]. *)
Definition float_at (a : list number) (i : nat) : number :=
  match a !! i with
  | Some v => v
  | None => NaN
  end.

Global Instance number_eq_dec : EqDecision number.
Proof. solve_decision. Defined.

End JS.

Import JS.

(** Closed equations between values of the model are settled by running
    the decision procedure. *)
Ltac by_compute :=
  apply (bool_decide_unpack _); vm_compute; exact I.

(** Order facts on canonical rationals are moved to plain rationals,
    where [lra] applies. *)
Ltac to_Q :=
  unfold Qclt, Qcle in *;
  unfold Qcdiv, Qcminus, Qcplus, Qcmult, Qcopp, Qcinv, Q2Qc, Qc_of_Z in *;
  cbn [this] in *;
  rewrite ?Qred_correct in *.

(** Strings of the language are sequences of UTF-16 code units. *)
Definition jsstring : Type := list N.

Definition lit (s : string) : jsstring :=
  List.map N_of_ascii (list_ascii_of_string s).

(* ================================================================== *)
(** ** Counted loops *)
(* ================================================================== *)

(** [for (let i = start; i < stop; i += step) body], with a state threaded
    through the body.  [fuel] bounds the number of iterations. *)
Fixpoint for_loop {S : Type} (fuel : nat) (i stop step : nat)
    (body : nat -> S -> S) (s : S) : S :=
  match fuel with
  | O => s
  | Datatypes.S fuel' =>
      if decide (i < stop)%nat
      then for_loop fuel' (i + step)%nat stop step body (body i s)
      else s
  end.

(** [for (let i = 0; i < n; i++) body]. *)
Definition for_range {S : Type} (n : nat) (body : nat -> S -> S) (s : S) : S :=
  for_loop n 0%nat n 1%nat body s.

(** The indices visited by a counted loop that runs [n] times. *)
Fixpoint steps (i step n : nat) : list nat :=
  match n with
  | O => []
  | S n' => i :: steps (i + step) step n'
  end.

(** Number of iterations of [for (i = start; i < stop; i += step)]. *)
Definition iterations (i stop step : nat) : nat :=
  ((stop - i + (step - 1)) / step)%nat.

(* ================================================================== *)
(** ** utils/imageProcessing.ts : calculateFrameDifference *)
(* ================================================================== *)

Definition calculateFrameDifference (data1 data2 : list Z) : number :=
  let diff :=
    for_loop (length data1) 0%nat (length data1) (4 * 4)%nat
      (fun i diff =>
         let rDiff := abs (sub (byte_at data1 i) (byte_at data2 i)) in
         let gDiff := abs (sub (byte_at data1 (i + 1)) (byte_at data2 (i + 1))) in
         let bDiff := abs (sub (byte_at data1 (i + 2)) (byte_at data2 (i + 2))) in
         add diff (add (add rDiff gDiff) bDiff))
      (num 0) in
  div diff (div (num (Z.of_nat (length data1))) (num 4)).


(* ================================================================== *)
(** ** utils/imageProcessing.ts : boxBlur *)
(* ================================================================== *)

(** The inner loop of both passes:
    [for (let k = -radius; k <= radius; k++) { sum += sample(k); count++; }]
    followed by [sum / count].  The radius is an integer number of pixels
    (the only caller passes 4). *)
Definition kernel_mean (radius : Z) (sample : Z -> number) : number :=
  let '(sum, count) :=
    fold_left (fun '(sum, count) k => (add sum (sample k), count + 1))
              (seqZ (- radius) (2 * radius + 1)) (num 0, 0) in
  div sum (num count).

(** Stores into the [Float32Array]s follow typed-array rules: a store past
    the end is dropped, which is what list insertion does. *)
Definition horizontalPass (data : list number) (w h : nat) (radius : Z)
    (temp : list number) : list number :=
  for_range h (fun y temp =>
    for_range w (fun x temp =>
      <[ (y * w + x)%nat :=
           kernel_mean radius (fun k =>
             let px := Z.min (Z.of_nat w - 1) (Z.max 0 (Z.of_nat x + k)) in
             float_at data (Z.to_nat (Z.of_nat y * Z.of_nat w + px))) ]>
      temp) temp) temp.

Definition verticalPass (temp : list number) (w h : nat) (radius : Z)
    (output : list number) : list number :=
  for_range h (fun y output =>
    for_range w (fun x output =>
      <[ (y * w + x)%nat :=
           kernel_mean radius (fun k =>
             let py := Z.min (Z.of_nat h - 1) (Z.max 0 (Z.of_nat y + k)) in
             float_at temp (Z.to_nat (py * Z.of_nat w + Z.of_nat x))) ]>
      output) output) output.

Definition boxBlur (data : list number) (w h : nat) (radius : Z)
  : list number :=
  let output := replicate (length data) (num 0) in
  let temp := replicate (length data) (num 0) in
  let temp := horizontalPass data w h radius temp in
  let output := verticalPass temp w h radius output in
  output.

(* ================================================================== *)
(** ** utils/imageProcessing.ts : applySketchEffect *)
(* ================================================================== *)

Definition luma_r : number := ratio 299 1000.
Definition luma_g : number := ratio 587 1000.
Definition luma_b : number := ratio 114 1000.

(** Step 2 of [applySketchEffect]: the luminance of every pixel. *)
Definition grayscale (data : list Z) (grayData : list number) : list number :=
  for_loop (length data) 0%nat (length data) 4%nat
    (fun i grayData =>
       let gray :=
         add (add (mul luma_r (byte_at data i))
                  (mul luma_g (byte_at data (i + 1))))
             (mul luma_b (byte_at data (i + 2))) in
       <[ (i / 4)%nat := gray ]> grayData)
    grayData.

(** Step 4: the colour dodge, written back into [data]. *)
Definition colorDodge (grayData blurredGray : list number) (data : list Z)
  : list Z :=
  for_loop (length data) 0%nat (length data) 4%nat
    (fun i data =>
       let pixelIndex := (i / 4)%nat in
       let base := float_at grayData pixelIndex in
       (* Invert the blurred gray *)
       let blend := sub (num 255) (float_at blurredGray pixelIndex) in
       let result :=
         if strict_eq blend (num 255) then num 255
         else min (num 255) (div (mul base (num 255)) (sub (num 255) blend)) in
       <[ (i + 2)%nat := toUint8Clamp result ]>
         (<[ (i + 1)%nat := toUint8Clamp result ]>
            (<[ i := toUint8Clamp result ]> data)))
    data.

(** The pixel pipeline of [applySketchEffect], from the [ImageData] read
    off the canvas ([data], RGBA bytes of a [width] x [height] image) to
    the bytes handed to [putImageData]. *)
Definition applySketchEffect (width height : nat) (data : list Z) : list Z :=
  let grayData := replicate (width * height)%nat (num 0) in
  let grayData := grayscale data grayData in
  let blurRadius := 4 in
  let blurredGray := boxBlur grayData width height blurRadius in
  colorDodge grayData blurredGray data.

(* ================================================================== *)
(** ** Number formatting *)
(* ================================================================== *)

(** Decimal digits of an integer, as [Number.prototype.toString] prints
    it. *)
Definition decimal (z : Z) : jsstring :=
  lit (NilZero.string_of_int (Z.to_int z)).

(** [toString] at the call sites of the source, whose finite arguments
    are all integers (a floor, or an index plus one). *)
Definition toString (a : number) : jsstring :=
  match a with
  | Num q => decimal (Qfloor q)
  | NaN => lit "NaN"
  | PosInf => lit "Infinity"
  | NegInf => lit "-Infinity"
  end.

(** [s.padStart(2, '0')]. *)
Definition padStart2 (s : jsstring) : jsstring :=
  replicate (2 - length s)%nat 48%N ++ s.

(** [x.toFixed(2)]: the nearest multiple of 1/100, the larger one on a
    tie, printed with two decimals. *)
Definition toFixed2 (a : number) : jsstring :=
  match a with
  | Num q =>
      let negative := Qcltb q 0%Qc in
      let x := if negative then (- q)%Qc else q in
      let n := Qfloor (x * Qc_of_Z 100 + Q2Qc (1 # 2))%Qc in
      (if negative then lit "-" else [])
        ++ decimal (n / 100) ++ lit "." ++ padStart2 (decimal (n mod 100))
  | other => toString other
  end.

(** The remainder operator [a % b]. *)
Definition rem (a b : number) : number :=
  match a, b with
  | Num x, Num y =>
      if Qceqb y 0%Qc then NaN
      else
        let quo := (x / y)%Qc in
        let t := if Qcltb quo 0%Qc then Qceiling quo else Qfloor quo in
        Num (x - y * Qc_of_Z t)%Qc
  | Num x, (PosInf | NegInf) => Num x
  | _, _ => NaN
  end.

Definition isNaN (a : number) : bool :=
  match a with NaN => true | _ => false end.

(** [formatTime] of App.tsx (FrameGallery.tsx has the same function).
    [seconds] is a field of type [number], so the [undefined] test never
    fires. *)
Definition formatTime (seconds : number) : jsstring :=
  if isNaN seconds then lit "0:00"
  else
    let m := floor (div seconds (num 60)) in
    let s := floor (rem seconds (num 60)) in
    toString m ++ lit ":" ++ padStart2 (toString s).

(* ================================================================== *)
(** ** types.ts *)
(* ================================================================== *)

Record Keyframe : Type := {
  id : jsstring;
  time : number;
  imageUrl : jsstring;
  isSketch : bool;
  originalUrl : jsstring;
  caption : option jsstring;
}.

(* ================================================================== *)
(** ** components/VideoProcessor.tsx : the scene sampler *)
(* ================================================================== *)

(** What the sampler observes of the [<video>] element and its canvases.
    [frameData t] is the low-resolution [ImageData] read after the seek to
    [t] has completed; [snapshot t] is the JPEG data URL of the output
    canvas at [t], or [None] when that canvas yields no 2d context. *)
Record VideoSource : Type := {
  duration : number;
  frameData : number -> list Z;
  snapshot : number -> option jsstring;
}.

(** The variables [startProcessing] closes over, and the progress values
    passed to [onProgress]. *)
Record SamplerState : Type := {
  frames : list Keyframe;
  lastFrameData : option (list Z);
  processedTime : number;
  progress : list number;
}.

Definition sampleRate : number := ratio 1 2.
Definition threshold : number := num 15.

Definition initialState : SamplerState :=
  {| frames := []; lastFrameData := None; processedTime := num 0;
     progress := [] |}.

Inductive interval_result : Type :=
| Completed (delivered : list Keyframe)
| Scheduled (next : SamplerState).

(** One call of [processInterval]. *)
Definition processInterval (video : VideoSource) (st : SamplerState)
  : interval_result :=
  if ge (processedTime st) (duration video) then Completed (frames st)
  else
    let currentData := frameData video (processedTime st) in
    (* Detect *)
    let isKeyframe :=
      match lastFrameData st with
      | None => true
      | Some last =>
          let diff := calculateFrameDifference last currentData in
          if gt diff threshold then true else false
      end in
    let '(frames', lastFrameData') :=
      if isKeyframe then
        let frames' :=
          match snapshot video (processedTime st) with
          | Some dataUrl =>
              frames st ++
                [ {| id := lit "frame-" ++ toFixed2 (processedTime st);
                     time := processedTime st;
                     imageUrl := dataUrl;
                     originalUrl := dataUrl;
                     isSketch := false;
                     caption := None |} ]
          | None => frames st
          end in
        (frames', Some currentData)
      else (frames st, lastFrameData st) in
    Scheduled
      {| frames := frames';
         lastFrameData := lastFrameData';
         processedTime := add (processedTime st) sampleRate;
         progress :=
           progress st ++
             [mul (div (processedTime st) (duration video)) (num 100)] |}.

(** The chain of [processInterval] calls started by [startProcessing];
    [None] when [fuel] calls did not reach completion. *)
Fixpoint run (video : VideoSource) (fuel : nat) (st : SamplerState)
  : option (list Keyframe) :=
  match fuel with
  | O => None
  | S fuel' =>
      match processInterval video st with
      | Completed delivered => Some delivered
      | Scheduled next => run video fuel' next
      end
  end.

Definition startProcessing (video : VideoSource) (fuel : nat)
  : option (list Keyframe) :=
  run video fuel initialState.

(* ================================================================== *)
(** ** utils/storyboardGenerator.ts *)
(* ================================================================== *)

Inductive font : Type := fontMain | fontHeader | fontNumber.

(** Calls made on a 2d context.  Text is recorded with the font in effect;
    colours, line widths and text alignment are left out. *)
Inductive canvas_call : Type :=
| FillRect (x y w h : number)
| FillText (f : font) (text : jsstring) (x y : number)
| BeginPath
| MoveTo (x y : number)
| LineTo (x y : number)
| Stroke
| StrokeRect (x y w h : number)
| Save
| Rect (x y w h : number)
| Clip
| DrawImage (url : jsstring) (x y w h : number)
| Restore.

Definition framesPerPage : nat := 12.
Definition cols : nat := 4.
Definition rows : nat := 3.

Definition canvasWidth : number := num 2480.
Definition canvasHeight : number := num 1754.
Definition padding : number := num 60.
Definition headerHeight : number := num 100.

Definition gridWidth : number := sub canvasWidth (mul padding (num 2)).
Definition gridHeight : number :=
  sub (sub canvasHeight (mul padding (num 2))) headerHeight.

Definition cellGapX : number := num 40.
Definition cellGapY : number := num 50.

Definition cellWidth : number :=
  div (sub gridWidth (mul cellGapX (num (Z.of_nat cols - 1))))
      (num (Z.of_nat cols)).
Definition cellHeight : number :=
  div (sub gridHeight (mul cellGapY (num (Z.of_nat rows - 1))))
      (num (Z.of_nat rows)).

Definition textAreaHeight : number := num 160.
Definition imageAreaHeight : number := sub cellHeight textAreaHeight.
Definition imageWidth : number := cellWidth.

(** The placeholder caption, U+5F85 U+8865 U+5145 followed by three
    dots. *)
Definition placeholderCaption : jsstring :=
  [24453; 34917; 20805; 46; 46; 46]%N.

(** The cover-fit block: from the natural size of the loaded image to
    [(drawW, drawH, offX, offY)]. *)
Definition coverFit (imgW imgH : nat) : number * number * number * number :=
  let imgAspect := div (num (Z.of_nat imgW)) (num (Z.of_nat imgH)) in
  let boxAspect := div imageWidth imageAreaHeight in
  let drawW := imageWidth in
  let drawH := imageAreaHeight in
  let offX := num 0 in
  let offY := num 0 in
  if gt imgAspect boxAspect then
    (* Image is wider than box *)
    let drawW := mul imageAreaHeight imgAspect in
    let offX := div (sub imageWidth drawW) (num 2) in
    (drawW, drawH, offX, offY)
  else
    (* Image is taller than box *)
    let drawH := div imageWidth imgAspect in
    let offY := div (sub imageAreaHeight drawH) (num 2) in
    (drawW, drawH, offX, offY).

Section Compositor.

(** The browser services the compositor relies on: whether the canvas
    of the page starting at frame [i] yields a 2d context, the natural
    size of the image behind a URL ([None] when loading fails), and the
    measured width of a string in the caption font. *)
Variable getContext : nat -> bool.
Variable loadImage : jsstring -> option (nat * nat).
Variable measureText : jsstring -> number.

(** The loop of [wrapText]: [rest] are the code units from index [n]
    on.  Returns the pending line, the cursor and the calls made. *)
Fixpoint wrap_loop (x maxWidth lineHeight : number) (rest : jsstring)
    (n : nat) (line : jsstring) (y : number) (lineCount : nat)
    (ctx : list canvas_call) : jsstring * number * list canvas_call :=
  match rest with
  | [] => (line, y, ctx)
  | c :: rest' =>
      let testLine := line ++ [c] in
      let testWidth := measureText testLine in
      if gt testWidth maxWidth && bool_decide (0 < n)%nat then
        let ctx := ctx ++ [FillText fontMain line x y] in
        let line := [c] in
        let y := add y lineHeight in
        let lineCount := S lineCount in
        if bool_decide (4 < lineCount)%nat then (line, y, ctx) (* break *)
        else wrap_loop x maxWidth lineHeight rest' (S n) line y lineCount ctx
      else
        wrap_loop x maxWidth lineHeight rest' (S n) testLine y lineCount ctx
  end.

Definition wrapText (ctx : list canvas_call) (text : jsstring)
    (x y maxWidth lineHeight : number) : list canvas_call :=
  let '(line, y, ctx) :=
    wrap_loop x maxWidth lineHeight text 0 [] y 0 ctx in
  ctx ++ [FillText fontMain line x y].

(** The body of the inner loop: frame [j] of the page that starts at
    frame [i]. *)
Definition drawFrame (i j : nat) (frame : Keyframe)
    (ctx : list canvas_call) : list canvas_call :=
  let col := (j mod cols)%nat in
  let row := (j / cols)%nat in
  let x := add padding (mul (num (Z.of_nat col)) (add cellWidth cellGapX)) in
  let y := add (add padding headerHeight)
               (mul (num (Z.of_nat row)) (add cellHeight cellGapY)) in
  let ctx := ctx ++ [StrokeRect x y imageWidth imageAreaHeight] in
  (* Draw Image *)
  let ctx :=
    match loadImage (imageUrl frame) with
    | Some (imgW, imgH) =>
        let '(drawW, drawH, offX, offY) := coverFit imgW imgH in
        ctx ++ [Save; BeginPath; Rect x y imageWidth imageAreaHeight; Clip;
                DrawImage (imageUrl frame) (add x offX) (add y offY)
                          drawW drawH;
                Restore]
    | None => ctx
    end in
  (* Shot Number *)
  let ctx :=
    ctx ++ [FillText fontNumber (toString (num (Z.of_nat (i + j + 1))))
                     (sub x (num 5)) (sub y (num 5))] in
  (* Caption Text *)
  let captionY := add (add y imageAreaHeight) (num 25) in
  let captionText :=
    match caption frame with
    | Some (c :: text) => c :: text
    | _ => placeholderCaption
    end in
  wrapText ctx captionText x captionY imageWidth (num 28).

(** One page: the calls made on its canvas. *)
Definition drawPage (projectName : jsstring) (i : nat)
    (pageFrames : list Keyframe) : list canvas_call :=
  let ctx := [FillRect (num 0) (num 0) canvasWidth canvasHeight] in
  let ctx :=
    ctx ++ [FillText fontHeader
              (projectName ++ lit " - Page " ++
               toString (add (floor (div (num (Z.of_nat i))
                                         (num (Z.of_nat framesPerPage))))
                             (num 1)))
              padding (num 70)] in
  let ctx :=
    ctx ++ [BeginPath; MoveTo padding (num 85);
            LineTo (sub canvasWidth padding) (num 85); Stroke] in
  for_range (length pageFrames)
    (fun j ctx =>
       match pageFrames !! j with
       | Some frame => drawFrame i j frame ctx
       | None => ctx
       end)
    ctx.

(** Each page stands for the data URL of its canvas. *)
Definition generateStoryboardImages (frames : list Keyframe)
    (projectName : jsstring) : list (list canvas_call) :=
  for_loop (length frames) 0%nat (length frames) framesPerPage
    (fun i pages =>
       let pageFrames := take framesPerPage (drop i frames) in
       if getContext i then pages ++ [drawPage projectName i pageFrames]
       else pages (* continue *))
    [].

End Compositor.

(** The shot numbers and the occupied cells of a page, read off its
    calls. *)
Definition shotNumbers (page : list canvas_call) : list jsstring :=
  omap (fun c => match c with
                 | FillText fontNumber text _ _ => Some text
                 | _ => None
                 end) page.

Definition occupiedCells (page : list canvas_call)
  : list (number * number) :=
  omap (fun c => match c with
                 | StrokeRect x y _ _ => Some (x, y)
                 | _ => None
                 end) page.

Definition textLines (ctx : list canvas_call) : list jsstring :=
  omap (fun c => match c with
                 | FillText fontMain text _ _ => Some text
                 | _ => None
                 end) ctx.

(* ================================================================== *)
(** ** App.tsx : handleExportTable *)
(* ================================================================== *)

Definition quote : N := 34%N.

(** The [replace] of the export: every double quote (code unit 34) of
    the caption is doubled. *)
Fixpoint escapeQuotes (s : jsstring) : jsstring :=
  match s with
  | [] => []
  | c :: s' =>
      if N.eqb c quote then quote :: quote :: escapeQuotes s'
      else c :: escapeQuotes s'
  end.

Definition csvRow (index : nat) (frame : Keyframe) : jsstring :=
  let safeDesc :=
    match caption frame with
    | Some (c :: text) => [quote] ++ escapeQuotes (c :: text) ++ [quote]
    | _ => []
    end in
  let timecode := formatTime (time frame) in
  toString (num (Z.of_nat (index + 1))) ++ lit "," ++ timecode ++ lit ","
    ++ safeDesc ++ [10%N].

(** The text handed to the [Blob]. *)
Definition csvContent (frames : list Keyframe) : jsstring :=
  let csvContent := [65279%N] in
  let csvContent := csvContent ++ lit "Shot No.,Timecode,Description" ++ [10%N] in
  fold_left (fun csvContent '(index, frame) => csvContent ++ csvRow index frame)
            (imap (fun index frame => (index, frame)) frames) csvContent.

(* ================================================================== *)
(** ** utils/geminiService.ts *)
(* ================================================================== *)

(** [s.split(sep)] for a separator of one code unit. *)
Fixpoint split (sep : N) (s : jsstring) : list jsstring :=
  match s with
  | [] => [[]]
  | c :: rest =>
      if N.eqb c sep then [] :: split sep rest
      else
        match split sep rest with
        | head :: tail => (c :: head) :: tail
        | [] => [[c]]
        end
  end.

(** White space and line terminators, the code units [trim] removes. *)
Definition isWhiteSpace (c : N) : bool :=
  bool_decide (c ∈ [9; 10; 11; 12; 13; 32; 160; 5760; 8192; 8193; 8194; 8195;
                    8196; 8197; 8198; 8199; 8200; 8201; 8202; 8232; 8233;
                    8239; 8287; 12288; 65279]%N).

Fixpoint trimStart (s : jsstring) : jsstring :=
  match s with
  | [] => []
  | c :: rest => if isWhiteSpace c then trimStart rest else s
  end.

Definition trim (s : jsstring) : jsstring :=
  rev (trimStart (rev (trimStart s))).

(** One part of a response: [inlineData] with its [mimeType] and
    [data], each possibly missing. *)
Record InlineData : Type := {
  mimeType : option jsstring;
  data : option jsstring;
}.

Record Part : Type := {
  inlineData : option InlineData;
}.

(** What the module sees of its surroundings: the API key of the
    environment, whether the client can be constructed, the natural width
    of the image behind a data URL ([None]: it fails to load), whether a
    canvas yields a 2d context, the data URL of an image redrawn at a
    given width, and the answers of the two models to the image data they
    are sent ([None]: the request fails; otherwise [response.text],
    respectively the parts of the first candidate). *)
Record GeminiService : Type := {
  apiKey : option jsstring;
  clientAvailable : bool;
  widthOf : jsstring -> option nat;
  canvasContext : bool;
  redrawn : jsstring -> nat -> jsstring;
  captionResponse : option jsstring -> option (option jsstring);
  sketchResponse : option jsstring -> option (option (list Part));
}.

(** [!process.env.API_KEY]. *)
Definition keyMissing (svc : GeminiService) : bool :=
  match apiKey svc with
  | Some (_ :: _) => false
  | _ => true
  end.

Definition resizeImage (svc : GeminiService) (base64Str : jsstring)
    (maxWidth : nat) : jsstring :=
  match widthOf svc base64Str with
  | Some width =>
      if bool_decide (width <= maxWidth)%nat then base64Str
      else if canvasContext svc then redrawn svc base64Str maxWidth
      else base64Str
  | None => base64Str
  end.

Definition msgConfigureKey : jsstring :=
  [35831; 37197; 32622; 32; 65; 80; 73; 32; 75; 69; 89]%N.
Definition msgUnrecognised : jsstring := [26080; 27861; 35782; 21035]%N.
Definition msgAnalysisFailed : jsstring :=
  [65; 73; 20998; 26512; 22833; 36133]%N.

(** [analyzeImage]; the model name and the prompt are constants of the
    request and are left out.  Whatever is thrown inside the [try] ends
    in the [catch]. *)
Definition analyzeImage (svc : GeminiService) (base64Image : jsstring)
  : jsstring :=
  if negb (clientAvailable svc) then msgAnalysisFailed
  else if keyMissing svc then msgConfigureKey
  else
    let resizedBase64 := resizeImage svc base64Image 512 in
    let cleanBase64 := split 44%N resizedBase64 !! 1%nat in
    match captionResponse svc cleanBase64 with
    | None => msgAnalysisFailed
    | Some text =>
        match option_map trim text with
        | Some (c :: trimmed) => c :: trimmed
        | _ => msgUnrecognised
        end
    end.

(** [generateSketch]; [None] stands for a thrown error. *)
Definition generateSketch (svc : GeminiService) (base64Image : jsstring)
  : option jsstring :=
  if negb (clientAvailable svc) then None
  else if keyMissing svc then None
  else
    let resizedBase64 := resizeImage svc base64Image 800 in
    let cleanBase64 := split 44%N resizedBase64 !! 1%nat in
    match sketchResponse svc cleanBase64 with
    | Some (Some parts) =>
        match
          omap (fun part =>
                  match inlineData part with
                  | Some inline =>
                      match data inline with
                      | Some (c :: payload) =>
                          Some (lit "data:"
                                  ++ default (lit "undefined") (mimeType inline)
                                  ++ lit ";base64," ++ c :: payload)
                      | _ => None
                      end
                  | None => None
                  end) parts
        with
        | url :: _ => Some url
        | [] => None
        end
    | _ => None
    end.

(* ================================================================== *)
(** ** App.tsx : the keyframe list of the application state *)
(* ================================================================== *)

(** [Partial<Keyframe>]: the fields an update carries. *)
Record KeyframeUpdates : Type := {
  newId : option jsstring;
  newTime : option number;
  newImageUrl : option jsstring;
  newIsSketch : option bool;
  newOriginalUrl : option jsstring;
  newCaption : option jsstring;
}.

(** [{ ...f, ...updates }]. *)
Definition spread (f : Keyframe) (updates : KeyframeUpdates) : Keyframe :=
  {| id := default (id f) (newId updates);
     time := default (time f) (newTime updates);
     imageUrl := default (imageUrl f) (newImageUrl updates);
     isSketch := default (isSketch f) (newIsSketch updates);
     originalUrl := default (originalUrl f) (newOriginalUrl updates);
     caption := match newCaption updates with
                | Some c => Some c
                | None => caption f
                end |}.

(** The state updater of [updateFrame].  The entries of the state array
    are keyframes, never [null]; the guard [f &&] of the source is
    vacuous on them. *)
Definition updateFrame (frameId : jsstring) (updates : KeyframeUpdates)
    (prev : list Keyframe) : list Keyframe :=
  List.map (fun f => if decide (id f = frameId) then spread f updates else f)
           prev.

(** [{ caption }]. *)
Definition captionOnly (text : jsstring) : KeyframeUpdates :=
  {| newId := None; newTime := None; newImageUrl := None;
     newIsSketch := None; newOriginalUrl := None; newCaption := Some text |}.

(** [!f.caption]: no caption, or an empty one. *)
Definition needsCaption (f : Keyframe) : bool :=
  match caption f with
  | Some (_ :: _) => false
  | _ => true
  end.

Definition framesNeedingCaption (frames : list Keyframe) : list Keyframe :=
  List.filter needsCaption frames.

(** The calls of [updateFrame] the workers of [processCaptionsQueue]
    make, one per frame of the queue; [analyzeImage] never throws, so the
    [catch] of the worker is not reached. *)
Definition captionJobs (svc : GeminiService) (queue : list Keyframe)
  : list (jsstring * jsstring) :=
  List.map (fun frame => (id frame, analyzeImage svc (originalUrl frame)))
           queue.

(** The state after the workers are done: the five workers take the
    frames off the queue one by one and their updates reach the state in
    the order the requests complete, [completed]. *)
Definition processCaptionsQueue (completed : list (jsstring * jsstring))
    (frames : list Keyframe) : list Keyframe :=
  fold_left (fun prev '(frameId, text) =>
               updateFrame frameId (captionOnly text) prev)
            completed frames.

(** The state updater of [handleConvertToSketch]. *)
Definition sketchUpdater (index : nat) (sketchUrl : jsstring)
    (current : list Keyframe) : list Keyframe :=
  match current !! index with
  | Some f =>
      <[ index := {| id := id f; time := time f; imageUrl := sketchUrl;
                     isSketch := true; originalUrl := originalUrl f;
                     caption := caption f |} ]> current
  | None => current
  end.

(** The updates the workers of [handleConvertToSketch] make: none for a
    frame that is already a sketch or whose request fails. *)
Definition sketchJobs (svc : GeminiService) (newFrames : list Keyframe)
  : list (nat * jsstring) :=
  omap (fun '(index, frame) =>
          if isSketch frame then None
          else option_map (fun sketchUrl => (index, sketchUrl))
                          (generateSketch svc (originalUrl frame)))
       (imap (fun index frame => (index, frame)) newFrames).

Definition handleConvertToSketch (completed : list (nat * jsstring))
    (frames : list Keyframe) : list Keyframe :=
  fold_left (fun current '(index, sketchUrl) =>
               sketchUpdater index sketchUrl current)
            completed frames.

(** [s.padStart(3, '0')]. *)
Definition padStart3 (s : jsstring) : jsstring :=
  replicate (3 - length s)%nat 48%N ++ s.

(** The calls of [folder.file] that [handleExportImages] makes on the
    folder of the archive, in order: the name of the entry and its data.
    A frame whose [originalUrl] is empty is passed over; the data are
    [undefined] ([None]) when the URL holds no comma. *)
Definition handleExportImages (frames : list Keyframe)
  : list (jsstring * option jsstring) :=
  omap (fun '(index, frame) =>
          match originalUrl frame with
          | _ :: _ =>
              let data := split 44%N (originalUrl frame) !! 1%nat in
              let filename :=
                lit "shot_"
                  ++ padStart3 (toString (num (Z.of_nat (index + 1))))
                  ++ lit ".jpg" in
              Some (filename, data)
          | [] => None
          end)
       (imap (fun index frame => (index, frame)) frames).

(** The frame as the two passes leave it. *)
Definition captioned (svc : GeminiService) (f : Keyframe) : Keyframe :=
  if needsCaption f
  then spread f (captionOnly (analyzeImage svc (originalUrl f)))
  else f.

Definition sketched (svc : GeminiService) (f : Keyframe) : Keyframe :=
  if isSketch f then f
  else
    match generateSketch svc (originalUrl f) with
    | Some sketchUrl =>
        {| id := id f; time := time f; imageUrl := sketchUrl;
           isSketch := true; originalUrl := originalUrl f;
           caption := caption f |}
    | None => f
    end.

(* ================================================================== *)
(** ** Vocabulary of the statements *)
(* ================================================================== *)

(** A frame whose pixels all have R = G = B = 0. *)
Definition uniformlyBlack (pixels : nat) (data : list Z) : Prop :=
  length data = (4 * pixels)%nat
  /\ forall p, (p < pixels)%nat ->
       data !! (4 * p)%nat = Some 0
       /\ data !! (4 * p + 1)%nat = Some 0
       /\ data !! (4 * p + 2)%nat = Some 0.

(** The instant of sample [k]: [k] times the sample interval. *)
Definition tq (k : nat) : Qc := (Qc_of_Z (Z.of_nat k) * Q2Qc (1 # 2))%Qc.
Definition timeAt (k : nat) : number := Num (tq k).

(** Number of samples taken of a source of duration [d]: the least [k]
    with [d <= k / 2]. *)
Definition sampleCount (d : Qc) : nat := Z.to_nat (Qceiling (d * 2)).

(** The samples of a run: instant and low-resolution buffer. *)
Definition samplesOf (video : VideoSource) (k n : nat)
  : list (number * list Z) :=
  List.map (fun j => (timeAt j, frameData video (timeAt j))) (seq k n).

(** The decision rule in the words of the specification: the first
    sample is a keyframe; a later one is a keyframe iff the difference
    between the last accepted buffer and its own exceeds the threshold,
    and an accepted buffer replaces the last accepted one. *)
Fixpoint selectAfter (lastAccepted : list Z)
    (samples : list (number * list Z)) : list number :=
  match samples with
  | [] => []
  | (t, current) :: rest =>
      if gt (calculateFrameDifference lastAccepted current) threshold
      then t :: selectAfter current rest
      else selectAfter lastAccepted rest
  end.

Definition selectKeyframes (samples : list (number * list Z)) : list number :=
  match samples with
  | [] => []
  | (t, first) :: rest => t :: selectAfter first rest
  end.

(** The test made on a sample: [isKeyframe] of [processInterval]. *)
Definition accepts (last : option (list Z)) (current : list Z) : bool :=
  match last with
  | None => true
  | Some last => gt (calculateFrameDifference last current) threshold
  end.

(** Consecutive keyframes are at least one sample interval apart. *)
Definition spaced (delivered : list Keyframe) : Prop :=
  forall i a b,
    delivered !! i = Some a -> delivered !! (S i) = Some b ->
    exists ta tb, time a = Num ta /\ time b = Num tb
                  /\ (ta < tb)%Qc /\ (ta + Q2Qc (1 # 2) <= tb)%Qc.

(** The invariant behind [spaced]: the last keyframe, when there is one,
    was taken at a sample before sample [k]. *)
Definition spacedUpTo (k : nat) (fs : list Keyframe) : Prop :=
  spaced fs
  /\ forall a, last fs = Some a ->
               exists j, (j < k)%nat /\ time a = timeAt j.

(** A caption font in which every code unit is 24 wide, as full-width
    glyphs are at 24px. *)
Definition fullWidth (s : jsstring) : number :=
  num (24 * Z.of_nat (length s)).

(** Thirteen keyframes, half a second apart, without captions. *)
Definition thirteenFrame (k : nat) : Keyframe :=
  {| id := lit "frame-" ++ toFixed2 (timeAt k);
     time := timeAt k;
     imageUrl := lit "data:image/jpeg";
     isSketch := false;
     originalUrl := lit "data:image/jpeg";
     caption := None |}.

Definition thirteenFrames : list Keyframe :=
  List.map thirteenFrame (seq 0 13).

(** The two values the difference of a buffer with itself can take. *)
Definition zeroOrNaN (a : number) : Prop := a = num 0 \/ a = NaN.

(** A source of 1.75 s showing one frame throughout. *)
Definition stillVideo : VideoSource :=
  {| duration := ratio 7 4;
     frameData := fun _ => [10; 20; 30; 255];
     snapshot := fun _ => Some (lit "data:image/jpeg") |}.

(** A source of 2 s whose frames alternate between black and white. *)
Definition flickerVideo : VideoSource :=
  {| duration := num 2;
     frameData := fun t =>
       if strict_eq (rem t (num 1)) (num 0)
       then replicate 16 0 else replicate 16 255;
     snapshot := fun _ => Some (lit "data:image/jpeg") |}.

(** The luminance stored for pixel [k] and the byte the colour dodge
    writes for it, as the loops of [applySketchEffect] compute them. *)
Definition lumaOf (data : list Z) (k : nat) : number :=
  add (add (mul luma_r (byte_at data (4 * k)))
           (mul luma_g (byte_at data (4 * k + 1))))
      (mul luma_b (byte_at data (4 * k + 2))).

Definition dodgeOf (grayData blurredGray : list number) (k : nat) : Z :=
  let base := float_at grayData k in
  let blend := sub (num 255) (float_at blurredGray k) in
  toUint8Clamp
    (if strict_eq blend (num 255) then num 255
     else min (num 255) (div (mul base (num 255)) (sub (num 255) blend))).

(** A frame all of whose pixels have the colour [(r, g, b)]. *)
Definition uniformColour (pixels : nat) (r g b : Z) (data : list Z) : Prop :=
  length data = (4 * pixels)%nat
  /\ forall k, (k < pixels)%nat ->
       data !! (4 * k)%nat = Some r
       /\ data !! (4 * k + 1)%nat = Some g
       /\ data !! (4 * k + 2)%nat = Some b.

(** A source without a known end, as a live stream reports it. *)
Definition openEndedVideo : VideoSource :=
  {| duration := PosInf;
     frameData := fun _ => [10; 20; 30; 255];
     snapshot := fun _ => Some (lit "data:image/jpeg") |}.

(** The identifier [processInterval] gives the keyframe of sample [k]. *)
Definition idAt (k : nat) : jsstring := lit "frame-" ++ toFixed2 (timeAt k).



(** What a CSV reader does with the content of a quoted field: a pair
    of double quotes stands for one. *)
Fixpoint unescapeQuotes (s : jsstring) : jsstring :=
  match s with
  | [] => []
  | c :: rest =>
      if N.eqb c quote then
        match rest with
        | c' :: rest' =>
            if N.eqb c' quote then quote :: unescapeQuotes rest'
            else c :: unescapeQuotes rest
        | [] => [c]
        end
      else c :: unescapeQuotes rest
  end.

(** Number of double quotes that are not part of a pair, reading from
    the left. *)
Fixpoint loneQuotes (s : jsstring) : nat :=
  match s with
  | [] => O
  | c :: rest =>
      if N.eqb c quote then
        match rest with
        | c' :: rest' =>
            if N.eqb c' quote then loneQuotes rest' else S (loneQuotes rest)
        | [] => 1%nat
        end
      else loneQuotes rest
  end.

(** One keyed update applied to one element: the element takes the
    update when the job carries its key. *)
Definition keyedStep {K A V : Type} `{EqDecision K} (key : A -> K)
    (upd : V -> A -> A) (a : A) (job : K * V) : A :=
  if decide (key a = job.1) then upd job.2 a else a.

(** The frame with its image replaced by a sketch. *)
Definition asSketch (sketchUrl : jsstring) (f : Keyframe) : Keyframe :=
  {| id := id f; time := time f; imageUrl := sketchUrl; isSketch := true;
     originalUrl := originalUrl f; caption := caption f |}.

(** The name [handleExportImages] gives the entry of the frame at
    [index]. *)
Definition shotFilename (index : nat) : jsstring :=
  lit "shot_" ++ padStart3 (decimal (Z.of_nat index + 1)) ++ lit ".jpg".

(** A service that holds a key and answers every request with the data
    it was sent: as the caption, and as the only part of the sketch. *)
Definition echoService : GeminiService :=
  {| apiKey := Some (lit "k");
     clientAvailable := true;
     widthOf := fun _ => None;
     canvasContext := true;
     redrawn := fun base64Str _ => base64Str;
     captionResponse := fun cleanBase64 => Some cleanBase64;
     sketchResponse := fun cleanBase64 =>
       Some (Some [ {| inlineData :=
                         Some {| mimeType := Some (lit "image/png");
                                 data := cleanBase64 |} |} ]) |}.

(** Two sampled frames without captions and a third that is already a
    captioned sketch. *)
Definition threeFrames : list Keyframe :=
  [ {| id := lit "0.00"; time := num 0; imageUrl := lit "u,one";
       isSketch := false; originalUrl := lit "u,one"; caption := None |};
    {| id := lit "0.50"; time := ratio 1 2; imageUrl := lit "u,two";
       isSketch := false; originalUrl := lit "u,two"; caption := None |};
    {| id := lit "1.00"; time := num 1; imageUrl := lit "s,three";
       isSketch := true; originalUrl := lit "u,three";
       caption := Some (lit "done") |} ].

(* ================================================================== *)
(** * Properties *)
(* ================================================================== *)

(** ** Counted loops *)

Lemma iterations_done i stop step :
  (0 < step)%nat -> (stop <= i)%nat -> iterations i stop step = O.
Proof.
  intros Hs Hi. unfold iterations.
  replace (stop - i)%nat with O by lia.
  apply Nat.div_small. lia.
Qed.

Lemma iterations_next i stop step :
  (0 < step)%nat -> (i < stop)%nat ->
  iterations i stop step = S (iterations (i + step) stop step).
Proof.
  intros Hs Hi. unfold iterations.
  destruct (decide (i + step <= stop)%nat) as [Hle|Hgt].
  - replace (stop - i + (step - 1))%nat
      with ((stop - (i + step) + (step - 1)) + 1 * step)%nat by lia.
    rewrite Nat.div_add by lia. lia.
  - replace (stop - (i + step))%nat with O by lia.
    rewrite (Nat.div_small (0 + (step - 1)) step) by lia.
    replace (stop - i + (step - 1))%nat
      with ((stop - i - 1) + 1 * step)%nat by lia.
    rewrite Nat.div_add by lia.
    rewrite Nat.div_small by lia. reflexivity.
Qed.

Lemma for_loop_steps {S : Type} fuel i stop step (body : nat -> S -> S) s :
  (0 < step)%nat -> (stop <= i + fuel * step)%nat ->
  for_loop fuel i stop step body s
  = fold_left (fun s j => body j s) (steps i step (iterations i stop step)) s.
Proof.
  intros Hs. revert i s.
  induction fuel as [|fuel IH]; intros i s Hfuel; simpl.
  - rewrite iterations_done by lia. reflexivity.
  - destruct (decide (i < stop)%nat) as [Hlt|Hge].
    + rewrite (iterations_next i) by assumption. simpl.
      apply IH. lia.
    + rewrite iterations_done by lia. reflexivity.
Qed.

Lemma steps_snoc i step n :
  steps i step (S n) = steps i step n ++ [(i + n * step)%nat].
Proof.
  revert i. induction n as [|n IH]; intros i.
  - simpl. do 2 f_equal. lia.
  - change (steps i step (S (S n))) with (i :: steps (i + step) step (S n)).
    rewrite IH. simpl. do 3 f_equal. lia.
Qed.

(** Loop invariants: [P m s] holds of the state [s] after [m] rounds. *)
Lemma fold_steps_inv {S : Type} (P : nat -> S -> Prop)
    (body : nat -> S -> S) i step n s :
  P O s ->
  (forall m s, (m < n)%nat -> P m s -> P (Datatypes.S m) (body (i + m * step)%nat s)) ->
  P n (fold_left (fun s j => body j s) (steps i step n) s).
Proof.
  intros H0. induction n as [|n IH]; intros Hstep; [exact H0|].
  rewrite steps_snoc, fold_left_app. simpl.
  apply Hstep; [lia|]. apply IH. intros m s' Hm. apply Hstep. lia.
Qed.

Lemma iterations_lt m stop step :
  (0 < step)%nat -> (m < iterations 0 stop step)%nat -> (m * step < stop)%nat.
Proof.
  intros Hs. unfold iterations. rewrite Nat.sub_0_r. intros Hm.
  pose proof (Nat.div_mod_eq (stop + (step - 1)) step) as Hd.
  pose proof (Nat.mod_upper_bound (stop + (step - 1)) step) as Hu.
  nia.
Qed.

Lemma for_loop_inv {S : Type} (P : nat -> S -> Prop)
    fuel stop step (body : nat -> S -> S) s :
  (0 < step)%nat -> (stop <= fuel * step)%nat ->
  P O s ->
  (forall m s, (m * step < stop)%nat -> P m s ->
               P (Datatypes.S m) (body (m * step)%nat s)) ->
  P (iterations 0 stop step) (for_loop fuel 0 stop step body s).
Proof.
  intros Hs Hfuel H0 Hstep.
  rewrite for_loop_steps by lia.
  apply fold_steps_inv; [exact H0|].
  intros m s' Hm HP. apply Hstep; [|exact HP].
  by apply iterations_lt.
Qed.

Lemma for_range_inv {S : Type} (P : nat -> S -> Prop)
    n (body : nat -> S -> S) s :
  P O s ->
  (forall m s, (m < n)%nat -> P m s -> P (Datatypes.S m) (body m s)) ->
  P n (for_range n body s).
Proof.
  intros H0 Hstep. unfold for_range.
  replace n with (iterations 0 n 1) at 1.
  2:{ unfold iterations. by rewrite Nat.sub_0_r, Nat.add_0_r, Nat.div_1_r. }
  apply for_loop_inv; [lia|lia|exact H0|].
  intros m s'. rewrite Nat.mul_1_r. apply Hstep.
Qed.

Lemma iterations_exact n step :
  (0 < step)%nat -> iterations 0 (step * n) step = n.
Proof.
  intros Hs. unfold iterations. rewrite Nat.sub_0_r.
  symmetry. apply (Nat.div_unique _ _ _ (step - 1)); lia.
Qed.

(** ** Arithmetic of the number model *)

Lemma Qc_of_Z_nonzero z : z <> 0 -> Qc_of_Z z <> 0%Qc.
Proof. intros Hz Heq. apply Hz. apply Z2Qc_inj. rewrite Heq. by_compute. Qed.

Lemma add_num a b : add (num a) (num b) = num (a + b).
Proof. unfold num, add. by rewrite Z2Qc_inj_add. Qed.

Lemma byte_at_replicate n v i :
  (i < n)%nat -> byte_at (replicate n v) i = num v.
Proof. intros Hi. unfold byte_at. by rewrite lookup_replicate_2. Qed.

Lemma float_at_replicate n v i :
  (i < n)%nat -> float_at (replicate n v) i = v.
Proof. intros Hi. unfold float_at. by rewrite lookup_replicate_2. Qed.

Lemma div_num_exact a b :
  b <> 0 -> div (num (a * b)) (num b) = num a.
Proof.
  intros Hb. unfold div, num, Qceqb.
  rewrite bool_decide_eq_false_2 by by apply Qc_of_Z_nonzero.
  f_equal. rewrite Z2Qc_inj_mul.
  apply Qcdiv_mult_l. by apply Qc_of_Z_nonzero.
Qed.

(** ** calculateFrameDifference *)

Section WhiteBlack.

(** [p] pixels, every channel 255, against [p] pixels, every channel 0. *)
Variable p : nat.

Local Abbreviation white := (replicate (4 * p) 255).
Local Abbreviation black := (replicate (4 * p) 0).

Lemma white_black_diff :
  (0 < p)%nat ->
  calculateFrameDifference white black
  = Num (Qc_of_Z (765 * Z.of_nat ((p + 3) / 4)) / Qc_of_Z (Z.of_nat p))%Qc.
Proof.
  intros Hp. unfold calculateFrameDifference.
  rewrite length_replicate.
  match goal with
  | |- div ?loop _ = _ =>
      assert (Hsum : loop = num (765 * Z.of_nat (iterations 0 (4 * p) 16)))
  end.
  { apply (for_loop_inv (fun m s => s = num (765 * Z.of_nat m)));
      [lia|lia|done|].
    intros m s Hm ->. cbv zeta.
    rewrite !byte_at_replicate by lia.
    replace (765 * Z.of_nat (S m)) with (765 * Z.of_nat m + 765) by lia.
    rewrite <- add_num. f_equal. }
  rewrite Hsum. clear Hsum.
  assert (Hit : iterations 0 (4 * p) 16 = ((p + 3) / 4)%nat).
  { unfold iterations. rewrite Nat.sub_0_r.
    pose proof (Nat.div_mod_eq (4 * p + (16 - 1)) 16).
    pose proof (Nat.mod_upper_bound (4 * p + (16 - 1)) 16).
    pose proof (Nat.div_mod_eq (p + 3) 4).
    pose proof (Nat.mod_upper_bound (p + 3) 4).
    lia. }
  rewrite Hit.
  replace (Z.of_nat (4 * p)) with (Z.of_nat p * 4) by lia.
  rewrite div_num_exact by lia.
  unfold div, num, Qceqb.
  rewrite bool_decide_eq_false_2; [reflexivity|].
  apply Qc_of_Z_nonzero. lia.
Qed.

End WhiteBlack.

(** C1, as the code has it.  With [p >= 1] pixels the loop visits
    [ceil(p / 4)] of them and the sum is divided by [p]: the result is
    [765 * ceil(p / 4) / p], which is [765 / 4] whenever [p] is a multiple
    of four, whatever the length.  (Every sum is an integer below 2^53 and
    [765 / 4] is a double, so the doubles of the source agree.) *)
Theorem frame_difference_white_black (p : nat) :
  (0 < p)%nat ->
  calculateFrameDifference (replicate (4 * p) 255) (replicate (4 * p) 0)
  = Num (Qc_of_Z (765 * Z.of_nat ((p + 3) / 4)) / Qc_of_Z (Z.of_nat p))%Qc
  /\ ((p mod 4 = 0)%nat ->
      calculateFrameDifference (replicate (4 * p) 255) (replicate (4 * p) 0)
      = ratio 765 4).
Proof.
  intros Hp. split; [by apply white_black_diff|].
  intros Hmod. rewrite white_black_diff by done.
  apply Nat.Div0.div_exact in Hmod.
  set (k := (p / 4)%nat) in *.
  assert (Hk : ((p + 3) / 4 = k)%nat).
  { symmetry. apply (Nat.div_unique _ _ _ 3); lia. }
  rewrite Hk, Hmod. unfold ratio. f_equal.
  replace (Z.of_nat (4 * k)) with (4 * Z.of_nat k) by lia.
  rewrite !Z2Qc_inj_mul.
  assert (Hk0 : Qc_of_Z (Z.of_nat k) <> 0%Qc) by (apply Qc_of_Z_nonzero; lia).
  assert (H4 : Qc_of_Z 4 <> 0%Qc) by (by apply Qc_of_Z_nonzero).
  replace (Q2Qc (765 # Z.to_pos 4)) with (Qc_of_Z 765 / Qc_of_Z 4)%Qc
    by by_compute.
  field. split; assumption.
Qed.

Lemma frame_difference_white_black_witness :
  (0 < 4)%nat /\
  calculateFrameDifference (replicate (4 * 4) 255) (replicate (4 * 4) 0)
  = ratio 765 4.
Proof.
  split; [lia|].
  apply (frame_difference_white_black 4); [lia|reflexivity].
Defined.

(** C1 as stated fails on a frame of four pixels. *)
Lemma frame_difference_white_black_not_765 :
  calculateFrameDifference (replicate 16 255) (replicate 16 0) <> num (3 * 255).
Proof. by_compute. Qed.

(** C4, as the code has it: nothing guards the division, an empty buffer
    gives 0 / 0, and the sampler's test against the threshold is false on
    it. *)
Theorem frame_difference_empty (data2 : list Z) :
  calculateFrameDifference [] data2 = NaN
  /\ gt (calculateFrameDifference [] data2) threshold = false.
Proof. split; reflexivity. Qed.

(** C4 as stated fails: the result on empty buffers is not 0. *)
Lemma frame_difference_empty_not_zero :
  calculateFrameDifference [] [] <> num 0.
Proof. by_compute. Qed.

(** ** boxBlur *)

(** Adding [n] copies of one value and dividing by [n] gives it back. *)
Lemma mean_of_copies (v : number) (n : nat) :
  (0 < n)%nat ->
  div (Nat.iter n (fun s => add s v) (num 0)) (num (Z.of_nat n)) = v.
Proof.
  intros Hn.
  assert (Hpos : Qcltb (Qc_of_Z (Z.of_nat n)) 0%Qc = false).
  { unfold Qcltb. apply bool_decide_eq_false_2.
    apply Qcle_not_lt. rewrite <- Z2Qc_inj_0.
    apply (proj1 (Z2Qc_inj_le 0 (Z.of_nat n))). lia. }
  destruct v as [q| | |].
  - assert (Hsum : forall m, Nat.iter m (fun s => add s (Num q)) (num 0)
                             = Num (q * Qc_of_Z (Z.of_nat m))%Qc).
    { induction m as [|m IH].
      - simpl. unfold num. f_equal. change (Z.of_nat 0) with 0.
        rewrite Z2Qc_inj_0. symmetry. apply Qcmult_0_r.
      - rewrite Nat.iter_succ, IH. cbn [add]. f_equal.
        rewrite Nat2Z.inj_succ, <- Z.add_1_r, Z2Qc_inj_add, Z2Qc_inj_1.
        by rewrite Qcmult_plus_distr_r, Qcmult_1_r. }
    rewrite Hsum. unfold div, num, Qceqb.
    rewrite bool_decide_eq_false_2 by (apply Qc_of_Z_nonzero; lia).
    f_equal. apply Qcdiv_mult_l. apply Qc_of_Z_nonzero. lia.
  - destruct n as [|n]; [lia|]. rewrite Nat.iter_succ.
    by destruct (Nat.iter n _ _).
  - destruct n as [|n]; [lia|].
    assert (Hsum : forall m, Nat.iter (S m) (fun s => add s PosInf) (num 0)
                             = PosInf).
    { induction m as [|m IH]; [reflexivity|].
      rewrite Nat.iter_succ, IH. reflexivity. }
    rewrite Hsum. unfold div, num. by rewrite Hpos.
  - destruct n as [|n]; [lia|].
    assert (Hsum : forall m, Nat.iter (S m) (fun s => add s NegInf) (num 0)
                             = NegInf).
    { induction m as [|m IH]; [reflexivity|].
      rewrite Nat.iter_succ, IH. reflexivity. }
    rewrite Hsum. unfold div, num. by rewrite Hpos.
Qed.

Lemma kernel_fold_uniform (sample : Z -> number) (v : number) ks sum count :
  (forall k, k ∈ ks -> sample k = v) ->
  fold_left (fun '(sum, count) k => (add sum (sample k), count + 1))
            ks (sum, count)
  = (Nat.iter (length ks) (fun s => add s v) sum, count + Z.of_nat (length ks)).
Proof.
  revert sum count. induction ks as [|k ks IH]; intros sum count Hks.
  - simpl. f_equal. lia.
  - cbn [fold_left length]. rewrite IH.
    2:{ intros k' Hk'. apply Hks. by right. }
    rewrite (Hks k) by by left.
    rewrite Nat.iter_succ_r. f_equal. lia.
Qed.

Lemma kernel_mean_uniform (radius : Z) (sample : Z -> number) (v : number) :
  0 <= radius ->
  (forall k, - radius <= k <= radius -> sample k = v) ->
  kernel_mean radius sample = v.
Proof.
  intros Hr Hs. unfold kernel_mean.
  rewrite (kernel_fold_uniform sample v).
  2:{ intros k Hk. apply elem_of_seqZ in Hk. apply Hs. lia. }
  rewrite length_seqZ, Z.add_0_l.
  apply mean_of_copies. lia.
Qed.

(** A row-major double loop that stores [g y x] at [y * w + x]. *)
Lemma fill_rows {A : Type} (g : nat -> nat -> A) (w h : nat) (a : list A) :
  length a = (w * h)%nat ->
  let out :=
    for_range h (fun y a =>
      for_range w (fun x a => <[ (y * w + x)%nat := g y x ]> a) a) a in
  length out = (w * h)%nat
  /\ forall y x, (y < h)%nat -> (x < w)%nat ->
                 out !! (y * w + x)%nat = Some (g y x).
Proof.
  intros Hlen out. subst out.
  apply (for_range_inv
    (fun m (b : list A) =>
       length b = (w * h)%nat
       /\ forall y x, (y < m)%nat -> (x < w)%nat ->
                      b !! (y * w + x)%nat = Some (g y x))).
  - split; [exact Hlen|]. intros; lia.
  - intros m b Hm [Hb Hrows].
    pose (P := fun (n : nat) (c : list A) =>
         length c = (w * h)%nat
         /\ (forall y x, (y < m)%nat -> (x < w)%nat ->
                         c !! (y * w + x)%nat = Some (g y x))
         /\ (forall x, (x < n)%nat -> c !! (m * w + x)%nat = Some (g m x))).
    assert (Hinner :
      P w (for_range w (fun x a => <[ (m * w + x)%nat := g m x ]> a) b)).
    { apply (for_range_inv P); unfold P.
      - repeat split; [exact Hb|exact Hrows|]. intros; lia.
      - intros n c Hn (Hc & Hprev & Hrow).
        repeat split.
        + by rewrite length_insert.
        + intros y x Hy Hx. rewrite list_lookup_insert_ne by nia.
          by apply Hprev.
        + intros x Hx. destruct (decide (x = n)) as [->|Hne].
          * apply list_lookup_insert_eq. nia.
          * rewrite list_lookup_insert_ne by lia. apply Hrow. lia. }
    destruct Hinner as (Hc & Hprev & Hrow). split; [exact Hc|].
    intros y x Hy Hx. destruct (decide (y = m)) as [->|Hne].
    + by apply Hrow.
    + apply Hprev; lia.
Qed.

Lemma cells_uniform {A : Type} (w h : nat) (a : list A) (v : A) :
  length a = (w * h)%nat ->
  (forall y x, (y < h)%nat -> (x < w)%nat -> a !! (y * w + x)%nat = Some v) ->
  a = replicate (w * h) v.
Proof.
  intros Hlen Hcells. apply list_eq. intros idx.
  destruct (decide (idx < w * h)%nat) as [Hlt|Hge].
  - rewrite lookup_replicate_2 by exact Hlt.
    assert (Hw : (0 < w)%nat) by nia.
    pose proof (Nat.div_mod_eq idx w) as Hd.
    pose proof (Nat.mod_upper_bound idx w ltac:(lia)) as Hu.
    replace idx with ((idx / w) * w + idx mod w)%nat at 1 by lia.
    apply Hcells; [|exact Hu].
    apply Nat.Div0.div_lt_upper_bound. lia.
  - rewrite !lookup_ge_None_2; [done| |]; rewrite ?length_replicate; lia.
Qed.

Section UniformRaster.

Variables (w h : nat) (radius : Z) (v : number).
Hypothesis radius_nonneg : 0 <= radius.

Local Abbreviation raster := (replicate (w * h) v).

Lemma horizontalPass_uniform (temp : list number) :
  length temp = (w * h)%nat ->
  horizontalPass raster w h radius temp = raster.
Proof.
  intros Hlen. unfold horizontalPass.
  pose (g := fun (y x : nat) =>
    kernel_mean radius (fun k =>
      let px := Z.min (Z.of_nat w - 1) (Z.max 0 (Z.of_nat x + k)) in
      float_at raster (Z.to_nat (Z.of_nat y * Z.of_nat w + px)))).
  destruct (fill_rows g w h temp Hlen) as [Hl Hcells].
  apply cells_uniform; [exact Hl|].
  intros y x Hy Hx.
  assert (Hv : g y x = v).
  { unfold g. apply kernel_mean_uniform; [exact radius_nonneg|].
    intros k _. cbv zeta. apply float_at_replicate. nia. }
  transitivity (Some (g y x)); [exact (Hcells y x Hy Hx)|by rewrite Hv].
Qed.

Lemma verticalPass_uniform (output : list number) :
  length output = (w * h)%nat ->
  verticalPass raster w h radius output = raster.
Proof.
  intros Hlen. unfold verticalPass.
  pose (g := fun (y x : nat) =>
    kernel_mean radius (fun k =>
      let py := Z.min (Z.of_nat h - 1) (Z.max 0 (Z.of_nat y + k)) in
      float_at raster (Z.to_nat (py * Z.of_nat w + Z.of_nat x)))).
  destruct (fill_rows g w h output Hlen) as [Hl Hcells].
  apply cells_uniform; [exact Hl|].
  intros y x Hy Hx.
  assert (Hv : g y x = v).
  { unfold g. apply kernel_mean_uniform; [exact radius_nonneg|].
    intros k _. cbv zeta. apply float_at_replicate. nia. }
  transitivity (Some (g y x)); [exact (Hcells y x Hy Hx)|by rewrite Hv].
Qed.

Lemma boxBlur_uniform : boxBlur raster w h radius = raster.
Proof.
  unfold boxBlur. rewrite length_replicate.
  rewrite horizontalPass_uniform by apply length_replicate.
  apply verticalPass_uniform, length_replicate.
Qed.

End UniformRaster.

(** C8: a raster of [w] x [h] samples that all equal [v] (finite or not)
    is left unchanged by the blur at every radius [>= 0]: same dimensions,
    every sample [v]; in particular the 1 x 1 raster.  (In doubles the
    partial sums [k * v] of a float32 value are exact as long as
    [2 * radius + 1 < 2^29], so the quotient is [v] there too.) *)
Theorem boxBlur_uniform_raster (w h : nat) (radius : Z) (v : number) :
  (1 <= w)%nat -> (1 <= h)%nat -> 0 <= radius ->
  let output := boxBlur (replicate (w * h) v) w h radius in
  length output = (w * h)%nat
  /\ (forall y x, (y < h)%nat -> (x < w)%nat ->
                  float_at output (y * w + x) = v)
  /\ boxBlur [v] 1 1 radius = [v].
Proof.
  intros Hw Hh Hr output. subst output.
  rewrite boxBlur_uniform by exact Hr.
  split; [apply length_replicate|]. split.
  - intros y x Hy Hx. apply float_at_replicate. nia.
  - apply (boxBlur_uniform 1 1 radius v Hr).
Qed.

Lemma boxBlur_uniform_raster_witness :
  (1 <= 3)%nat /\ (1 <= 2)%nat /\ 0 <= 4
  /\ (let output := boxBlur (replicate (3 * 2) (ratio 7 2)) 3 2 4 in
      length output = (3 * 2)%nat
      /\ (forall y x, (y < 2)%nat -> (x < 3)%nat ->
                      float_at output (y * 3 + x) = ratio 7 2)
      /\ boxBlur [ratio 7 2] 1 1 4 = [ratio 7 2]).
Proof.
  split; [lia|]. split; [lia|]. split; [lia|].
  apply (boxBlur_uniform_raster 3 2 4 (ratio 7 2)); lia.
Defined.

(** ** applySketchEffect *)

Lemma grayscale_black (pixels : nat) (data : list Z) :
  uniformlyBlack pixels data ->
  grayscale data (replicate pixels (num 0)) = replicate pixels (num 0).
Proof.
  intros [Hlen Hblack]. unfold grayscale.
  apply (for_loop_inv (fun _ s => s = replicate pixels (num 0)));
    [lia|lia|done|].
  intros m s Hm ->. cbv zeta.
  assert (Hp : (m < pixels)%nat) by lia.
  destruct (Hblack m Hp) as (Hr & Hg & Hb).
  unfold byte_at.
  replace (m * 4)%nat with (4 * m)%nat by lia.
  rewrite Hr, Hg, Hb.
  replace (4 * m / 4)%nat with m by (rewrite Nat.mul_comm, Nat.div_mul; lia).
  apply list_insert_id. rewrite lookup_replicate_2 by exact Hp.
  f_equal. by_compute.
Qed.

Lemma colorDodge_black (pixels : nat) (data : list Z) :
  length data = (4 * pixels)%nat ->
  let zeros := replicate pixels (num 0) in
  let out := colorDodge zeros zeros data in
  length out = length data
  /\ forall p, (p < pixels)%nat ->
       out !! (4 * p)%nat = Some 255
       /\ out !! (4 * p + 1)%nat = Some 255
       /\ out !! (4 * p + 2)%nat = Some 255
       /\ out !! (4 * p + 3)%nat = data !! (4 * p + 3)%nat.
Proof.
  intros Hlen zeros out. subst out. unfold colorDodge.
  pose (P := fun (m : nat) (d : list Z) =>
    length d = length data
    /\ forall p, (p < pixels)%nat ->
         ((p < m)%nat ->
            d !! (4 * p)%nat = Some 255
            /\ d !! (4 * p + 1)%nat = Some 255
            /\ d !! (4 * p + 2)%nat = Some 255)
         /\ d !! (4 * p + 3)%nat = data !! (4 * p + 3)%nat).
  assert (Hinv : P (iterations 0 (length data) 4)
    (for_loop (length data) 0 (length data) 4
       (fun i data =>
          let pixelIndex := (i / 4)%nat in
          let base := float_at zeros pixelIndex in
          let blend := sub (num 255) (float_at zeros pixelIndex) in
          let result :=
            if strict_eq blend (num 255) then num 255
            else min (num 255)
                     (div (mul base (num 255)) (sub (num 255) blend)) in
          <[ (i + 2)%nat := toUint8Clamp result ]>
            (<[ (i + 1)%nat := toUint8Clamp result ]>
               (<[ i := toUint8Clamp result ]> data)))
       data)).
  { apply (for_loop_inv P); [lia|lia| |].
    - split; [done|]. intros p Hp. split; [lia|done].
    - intros m d Hm [Hd Hpix]. cbv zeta.
      assert (Hp : (m < pixels)%nat) by lia.
      replace (m * 4 / 4)%nat with m by (rewrite Nat.div_mul; lia).
      unfold zeros. rewrite float_at_replicate by exact Hp.
      replace (toUint8Clamp
                 (if strict_eq (sub (num 255) (num 0)) (num 255)
                  then num 255
                  else min (num 255)
                         (div (mul (num 0) (num 255))
                              (sub (num 255) (sub (num 255) (num 0))))))
        with 255 by by_compute.
      split; [by rewrite !length_insert|].
      intros p Hp'. destruct (Hpix p Hp') as [Hdone Halpha].
      rewrite !list_lookup_insert, !length_insert.
      split.
      + intros Hlt. destruct (decide (p = m)) as [->|Hne].
        * repeat split; repeat case_decide; try done; lia.
        * destruct Hdone as (H0 & H1 & H2); [lia|].
          repeat split; repeat case_decide; try done; lia.
      + repeat case_decide; try done; lia. }
  destruct Hinv as [Hl Hpix]. split; [exact Hl|].
  intros p Hp. destruct (Hpix p Hp) as [Hdone Halpha].
  destruct Hdone as (H0 & H1 & H2).
  - rewrite Hlen, iterations_exact by lia. exact Hp.
  - by repeat split.
Qed.

(** C2, as the code has it.  On a frame whose pixels are all black the
    luminance and its blur are 0, the inverted blur is 255, and the
    saturating branch of the dodge writes 255: the output is uniformly
    white, alpha untouched.  (All intermediate values are 0 or 255, exact
    in doubles.) *)
Theorem sketch_of_black_is_white (width height : nat) (data : list Z) :
  uniformlyBlack (width * height) data ->
  let out := applySketchEffect width height data in
  length out = length data
  /\ forall p, (p < width * height)%nat ->
       out !! (4 * p)%nat = Some 255
       /\ out !! (4 * p + 1)%nat = Some 255
       /\ out !! (4 * p + 2)%nat = Some 255
       /\ out !! (4 * p + 3)%nat = data !! (4 * p + 3)%nat.
Proof.
  intros Hblack out. subst out. unfold applySketchEffect. cbv zeta.
  rewrite (grayscale_black _ _ Hblack).
  rewrite boxBlur_uniform by lia.
  apply colorDodge_black. apply Hblack.
Qed.

Lemma sketch_of_black_is_white_witness :
  uniformlyBlack (2 * 1) [0; 0; 0; 255; 0; 0; 0; 128]
  /\ (let out := applySketchEffect 2 1 [0; 0; 0; 255; 0; 0; 0; 128] in
      length out = length [0; 0; 0; 255; 0; 0; 0; 128]
      /\ forall p, (p < 2 * 1)%nat ->
           out !! (4 * p)%nat = Some 255
           /\ out !! (4 * p + 1)%nat = Some 255
           /\ out !! (4 * p + 2)%nat = Some 255
           /\ out !! (4 * p + 3)%nat
              = [0; 0; 0; 255; 0; 0; 0; 128] !! (4 * p + 3)%nat).
Proof.
  assert (Hb : uniformlyBlack (2 * 1) [0; 0; 0; 255; 0; 0; 0; 128]).
  { split; [reflexivity|].
    intros p Hp. destruct p as [|[|p]]; [by repeat split|by repeat split|].
    simpl in Hp. lia. }
  split; [exact Hb|].
  exact (sketch_of_black_is_white 2 1 [0; 0; 0; 255; 0; 0; 0; 128] Hb).
Defined.

(** C2 as stated fails: the single black pixel comes out white. *)
Lemma sketch_of_black_pixel :
  applySketchEffect 1 1 [0; 0; 0; 255] = [255; 255; 255; 255].
Proof. by_compute. Qed.

(** ** The scene sampler *)

Lemma tq_succ k : (tq k + Q2Qc (1 # 2) = tq (S k))%Qc.
Proof.
  unfold tq. rewrite Nat2Z.inj_succ, <- Z.add_1_r, Z2Qc_inj_add, Z2Qc_inj_1.
  by rewrite Qcmult_plus_distr_l, Qcmult_1_l.
Qed.

Lemma timeAt_succ k : add (timeAt k) sampleRate = timeAt (S k).
Proof. unfold timeAt, sampleRate, ratio, add. f_equal. apply tq_succ. Qed.

Lemma this_tq k : (this (tq k) == inject_Z (Z.of_nat k) * (1 # 2))%Q.
Proof.
  unfold tq, Qcmult, Q2Qc. cbn [this].
  rewrite !Qred_correct. reflexivity.
Qed.

Lemma tq_gap j k : (j < k)%nat -> (tq j + Q2Qc (1 # 2) <= tq k)%Qc.
Proof.
  intros Hjk. rewrite tq_succ. unfold Qcle. rewrite !this_tq.
  assert (Hz : (Z.of_nat (S j) <= Z.of_nat k)%Z) by lia.
  rewrite Zle_Qle in Hz. lra.
Qed.

Lemma ge_Num a b : ge (Num a) (Num b) = true <-> (b <= a)%Qc.
Proof.
  unfold ge, gt, lt, strict_eq, Qcltb, Qceqb.
  rewrite orb_true_iff, !bool_decide_eq_true. split.
  - intros [Hlt| ->]; [by apply Qclt_le_weak|apply Qcle_refl].
  - intros Hle. destruct (Qcle_lt_or_eq _ _ Hle); auto.
Qed.

Lemma timeAt_reached k d :
  ge (timeAt k) (Num d) = true <-> (Qceiling (d * 2) <= Z.of_nat k)%Z.
Proof.
  unfold timeAt. rewrite ge_Num. unfold Qcle. rewrite this_tq. split.
  - intros Hle.
    rewrite <- (Qceiling_Z (Z.of_nat k)). apply Qceiling_resp_le. lra.
  - intros Hle. rewrite Zle_Qle in Hle.
    pose proof (Qle_ceiling (d * 2)). lra.
Qed.

Lemma timeAt_pending k d :
  (k < sampleCount d)%nat -> ge (timeAt k) (Num d) = false.
Proof.
  intros Hk. apply not_true_is_false. rewrite timeAt_reached.
  unfold sampleCount in Hk. lia.
Qed.

Lemma timeAt_done k d :
  (sampleCount d <= k)%nat -> ge (timeAt k) (Num d) = true.
Proof.
  intros Hk. apply timeAt_reached. unfold sampleCount in Hk. lia.
Qed.

Lemma timeAt_0 : timeAt 0 = num 0.
Proof. by_compute. Qed.

Lemma tq_lt j k : (j < k)%nat -> (tq j < tq k)%Qc.
Proof.
  intros Hjk. unfold Qclt. rewrite !this_tq.
  assert (Hz : (Z.of_nat j < Z.of_nat k)%Z) by lia.
  rewrite Zlt_Qlt in Hz. lra.
Qed.

Section Sampler.

Variable video : VideoSource.

Lemma processInterval_completed st :
  ge (processedTime st) (duration video) = true ->
  processInterval video st = Completed (frames st).
Proof. unfold processInterval. by intros ->. Qed.

(** What one sampling round does to the state. *)
Lemma processInterval_scheduled st :
  ge (processedTime st) (duration video) = false ->
  let current := frameData video (processedTime st) in
  let accept := accepts (lastFrameData st) current in
  exists next emitted,
    processInterval video st = Scheduled next
    /\ processedTime next = add (processedTime st) sampleRate
    /\ lastFrameData next
       = (if accept then Some current else lastFrameData st)
    /\ frames next = frames st ++ emitted
    /\ (accept = false -> emitted = [])
    /\ (accept = true ->
        match snapshot video (processedTime st) with
        | Some _ => exists kf, emitted = [kf] /\ time kf = processedTime st
        | None => emitted = []
        end).
Proof.
  intros Hge current accept. subst accept current.
  unfold processInterval, accepts. rewrite Hge.
  destruct (lastFrameData st) as [last|] eqn:Hlast; cbv zeta;
    [destruct (gt (calculateFrameDifference last _) threshold) eqn:Hgt|].
  1,3: destruct (snapshot video (processedTime st)) as [url|];
    [ eexists _, [_]; repeat split; try done;
      intros _; eexists; split; reflexivity
    | eexists _, []; repeat split; try done;
      cbn [frames]; by rewrite app_nil_r ].
  eexists _, []. repeat split; try done.
  cbn [frames]. by rewrite app_nil_r.
Qed.

(** *** Termination *)

Lemma run_completes (d : Qc) :
  duration video = Num d ->
  forall n k st,
    processedTime st = timeAt k ->
    (sampleCount d <= k + n)%nat ->
    exists delivered, run video (S n) st = Some delivered.
Proof.
  intros Hd. induction n as [|n IH]; intros k st Ht Hk.
  - cbn [run]. rewrite processInterval_completed; [eauto|].
    rewrite Ht, Hd. apply timeAt_done. lia.
  - change (run video (S (S n)) st)
      with (match processInterval video st with
            | Completed delivered => Some delivered
            | Scheduled next => run video (S n) next
            end).
    destruct (ge (processedTime st) (duration video)) eqn:Hge.
    + rewrite processInterval_completed by done. eauto.
    + destruct (processInterval_scheduled st Hge)
        as (next & emitted & -> & Hnext & _).
      apply (IH (S k)); [|lia].
      by rewrite Hnext, Ht, timeAt_succ.
Qed.

(** *** Spacing of the keyframes *)

Lemma spacedUpTo_mono k fs : spacedUpTo k fs -> spacedUpTo (S k) fs.
Proof.
  intros [Hs Hl]. split; [exact Hs|].
  intros a Ha. destruct (Hl a Ha) as (j & Hj & Hta). exists j. split; [lia|done].
Qed.

Lemma spacedUpTo_snoc k fs kf :
  spacedUpTo k fs -> time kf = timeAt k -> spacedUpTo (S k) (fs ++ [kf]).
Proof.
  intros [Hs Hl] Hkf. split.
  - intros i a b Ha Hb.
    destruct (decide (S i < length fs)%nat) as [Hin|Hout].
    + rewrite lookup_app_l in Ha by lia. rewrite lookup_app_l in Hb by lia.
      by apply (Hs i).
    + assert (Hi : S i = length fs).
      { apply lookup_lt_Some in Hb. rewrite length_app in Hb. simpl in Hb. lia. }
      rewrite lookup_app_l in Ha by lia.
      rewrite lookup_app_r in Hb by lia.
      replace (S i - length fs)%nat with O in Hb by lia.
      injection Hb as <-.
      destruct (Hl a) as (j & Hj & Hta).
      { rewrite last_lookup. rewrite <- Hi. exact Ha. }
      exists (tq j), (tq k). repeat split; try done.
      * by apply tq_lt.
      * by apply tq_gap.
  - intros a Ha. rewrite last_snoc in Ha. injection Ha as <-.
    exists k. split; [lia|done].
Qed.

Lemma run_spaced fuel :
  forall k st delivered,
    processedTime st = timeAt k ->
    spacedUpTo k (frames st) ->
    run video fuel st = Some delivered ->
    spaced delivered.
Proof.
  induction fuel as [|fuel IH]; intros k st delivered Ht Hinv Hrun;
    [done|].
  cbn [run] in Hrun.
  destruct (ge (processedTime st) (duration video)) eqn:Hge.
  - rewrite processInterval_completed in Hrun by done.
    injection Hrun as <-. apply Hinv.
  - destruct (processInterval_scheduled st Hge)
      as (next & emitted & Hstep & Hnext & _ & Hframes & Hrej & Hacc).
    rewrite Hstep in Hrun.
    apply (IH (S k) next delivered); [|  |exact Hrun].
    + by rewrite Hnext, Ht, timeAt_succ.
    + rewrite Hframes.
      destruct (accepts (lastFrameData st) (frameData video (processedTime st))).
      * specialize (Hacc eq_refl).
        destruct (snapshot video (processedTime st)).
        -- destruct Hacc as (kf & -> & Hkf).
           apply spacedUpTo_snoc; [exact Hinv|]. by rewrite Hkf.
        -- rewrite Hacc, app_nil_r. by apply spacedUpTo_mono.
      * rewrite (Hrej eq_refl), app_nil_r. by apply spacedUpTo_mono.
Qed.

End Sampler.

(** *** The difference of a buffer with itself *)

Lemma zeroOrNaN_channel (data : list Z) i :
  zeroOrNaN (abs (sub (byte_at data i) (byte_at data i))).
Proof.
  unfold byte_at. destruct (data !! i) as [b|]; [left|by right].
  unfold num, sub, neg, add, abs. rewrite Qcplus_opp_r.
  by_compute.
Qed.

Lemma zeroOrNaN_add a b : zeroOrNaN a -> zeroOrNaN b -> zeroOrNaN (add a b).
Proof. intros [->| ->] [->| ->]; [left; by_compute|by right..]. Qed.

Lemma frame_difference_self (data : list Z) :
  gt (calculateFrameDifference data data) threshold = false.
Proof.
  unfold calculateFrameDifference.
  match goal with
  | |- gt (div ?loop _) _ = _ => assert (Hsum : zeroOrNaN loop)
  end.
  { apply (for_loop_inv (fun _ s => zeroOrNaN s)); [lia|lia|by left|].
    intros m s _ Hs. cbv zeta.
    auto using zeroOrNaN_add, zeroOrNaN_channel. }
  destruct Hsum as [-> | ->]; [|reflexivity].
  rewrite <- (Z.mul_1_r (Z.of_nat (length data))) at 1.
  unfold div at 2. unfold num at 2 3.
  replace (Qceqb (Qc_of_Z 4) 0%Qc) with false by by_compute.
  unfold div, num. destruct (Qceqb _ 0%Qc); [reflexivity|].
  replace (Qc_of_Z 0) with 0%Qc by by_compute.
  unfold Qcdiv. rewrite Qcmult_0_l. by_compute.
Qed.

Lemma selectAfter_constant (b : list Z) samples :
  Forall (fun s => snd s = b) samples -> selectAfter b samples = [].
Proof.
  induction 1 as [|[t cur] rest Hcur _ IH]; [reflexivity|].
  simpl in Hcur. subst cur. cbn [selectAfter].
  by rewrite frame_difference_self.
Qed.

Section Selection.

Variable video : VideoSource.
Variable d : Qc.
Hypothesis duration_finite : duration video = Num d.
Hypothesis context_available : forall t, is_Some (snapshot video t).

Lemma run_select n :
  forall k st last,
    processedTime st = timeAt k ->
    lastFrameData st = Some last ->
    (k + n = sampleCount d)%nat ->
    exists delivered,
      run video (S n) st = Some delivered
      /\ List.map time delivered
         = List.map time (frames st) ++ selectAfter last (samplesOf video k n).
Proof.
  induction n as [|n IH]; intros k st last Ht Hlast Hk.
  - exists (frames st). cbn [run].
    rewrite processInterval_completed.
    2:{ rewrite Ht, duration_finite. apply timeAt_done. lia. }
    split; [done|]. by rewrite app_nil_r.
  - change (run video (S (S n)) st)
      with (match processInterval video st with
            | Completed delivered => Some delivered
            | Scheduled next => run video (S n) next
            end).
    assert (Hge : ge (processedTime st) (duration video) = false).
    { rewrite Ht, duration_finite. apply timeAt_pending. lia. }
    destruct (processInterval_scheduled video st Hge)
      as (next & emitted & -> & Hnext & Hlast' & Hframes & Hrej & Hacc).
    rewrite Hlast, Ht in Hlast'. rewrite Hlast, Ht in Hrej.
    rewrite Hlast, !Ht in Hacc.
    unfold samplesOf. cbn [seq List.map selectAfter]. fold (samplesOf video (S k) n).
    unfold accepts in *.
    destruct (gt (calculateFrameDifference last (frameData video (timeAt k)))
                 threshold).
    + destruct (context_available (timeAt k)) as [url Hurl].
      rewrite Hurl in Hacc. destruct (Hacc eq_refl) as (kf & -> & Hkf).
      destruct (IH (S k) next (frameData video (timeAt k)))
        as (delivered & Hrun & Htimes);
        [by rewrite Hnext, Ht, timeAt_succ|done|lia|].
      exists delivered. split; [exact Hrun|].
      rewrite Htimes, Hframes, map_app. cbn [List.map].
      rewrite Hkf, <- app_assoc. reflexivity.
    + rewrite (Hrej eq_refl), app_nil_r in Hframes.
      destruct (IH (S k) next last) as (delivered & Hrun & Htimes);
        [by rewrite Hnext, Ht, timeAt_succ|done|lia|].
      exists delivered. split; [exact Hrun|]. by rewrite Htimes, Hframes.
Qed.

Lemma startProcessing_select :
  exists delivered,
    startProcessing video (S (sampleCount d)) = Some delivered
    /\ List.map time delivered
       = selectKeyframes (samplesOf video 0 (sampleCount d)).
Proof.
  unfold startProcessing.
  destruct (sampleCount d) as [|n] eqn:Hcount.
  - exists []. cbn [run]. rewrite processInterval_completed; [done|].
    cbn [initialState processedTime]. rewrite <- timeAt_0, duration_finite.
    apply timeAt_done. lia.
  - change (run video (S (S n)) initialState)
      with (match processInterval video initialState with
            | Completed delivered => Some delivered
            | Scheduled next => run video (S n) next
            end).
    assert (Hge : ge (processedTime initialState) (duration video) = false).
    { cbn [initialState processedTime]. rewrite <- timeAt_0, duration_finite.
      apply timeAt_pending. lia. }
    destruct (processInterval_scheduled video initialState Hge)
      as (next & emitted & -> & Hnext & Hlast' & Hframes & _ & Hacc).
    cbn [initialState processedTime lastFrameData frames accepts] in *.
    destruct (context_available (num 0)) as [url Hurl].
    rewrite Hurl in Hacc. destruct (Hacc eq_refl) as (kf & -> & Hkf).
    destruct (run_select n 1 next (frameData video (num 0)))
      as (delivered & Hrun & Htimes);
      [by rewrite Hnext, <- timeAt_0, timeAt_succ|done|lia|].
    exists delivered. split; [exact Hrun|].
    rewrite Htimes, Hframes. unfold samplesOf.
    cbn [seq List.map selectKeyframes app]. rewrite Hkf, timeAt_0.
    reflexivity.
Qed.

End Selection.

Lemma sampleCount_pos d : (0 < d)%Qc -> (0 < sampleCount d)%nat.
Proof.
  intros Hd. unfold sampleCount.
  pose proof (Qle_ceiling (d * 2)) as Hc.
  assert (Hz : (0 < Qceiling (d * 2))%Z).
  { rewrite Zlt_Qlt. unfold Qclt in Hd.
    change (this 0%Qc) with 0%Q in Hd. change (inject_Z 0) with 0%Q. lra. }
  lia.
Qed.

(** C5: with the output canvas available, a run over a source of finite
    duration [d] completes after [sampleCount d] samples and delivers
    exactly the samples chosen by the decision rule of the specification
    (first sample always; later ones iff the difference with the last
    accepted buffer exceeds 15).  When every sampled frame is the same and
    there is a first sample ([0 < d]), exactly one keyframe is delivered,
    the one at time 0. *)
Theorem keyframe_decision_rule (video : VideoSource) (d : Qc) :
  duration video = Num d ->
  (forall t, is_Some (snapshot video t)) ->
  exists delivered,
    startProcessing video (S (sampleCount d)) = Some delivered
    /\ List.map time delivered
       = selectKeyframes (samplesOf video 0 (sampleCount d))
    /\ ((0 < d)%Qc ->
        (forall t, frameData video t = frameData video (num 0)) ->
        exists kf, delivered = [kf] /\ time kf = num 0).
Proof.
  intros Hd Hctx.
  destruct (startProcessing_select video d Hd Hctx) as (delivered & Hrun & Htimes).
  exists delivered. split; [exact Hrun|]. split; [exact Htimes|].
  intros Hpos Hconst.
  pose proof (sampleCount_pos d Hpos) as Hn.
  destruct (sampleCount d) as [|n]; [lia|].
  unfold samplesOf in Htimes. cbn [seq List.map selectKeyframes] in Htimes.
  rewrite selectAfter_constant in Htimes.
  2:{ apply Forall_forall. intros [t b] Hin.
      apply list_elem_of_In, in_map_iff in Hin. destruct Hin as (j & Heq & _).
      injection Heq as _ <-. cbn [snd].
      rewrite timeAt_0. apply Hconst. }
  destruct delivered as [|kf [|kf' rest]]; [done| |done].
  exists kf. split; [done|].
  cbn [List.map] in Htimes. injection Htimes as ->. apply timeAt_0.
Qed.

Lemma keyframe_decision_rule_witness :
  duration stillVideo = Num (Q2Qc (7 # 4))
  /\ (forall t, is_Some (snapshot stillVideo t))
  /\ exists delivered,
       startProcessing stillVideo (S (sampleCount (Q2Qc (7 # 4))))
       = Some delivered
       /\ exists kf, delivered = [kf] /\ time kf = num 0.
Proof.
  assert (Hctx : forall t, is_Some (snapshot stillVideo t))
    by (intros t; simpl; eauto).
  split; [reflexivity|]. split; [exact Hctx|].
  destruct (keyframe_decision_rule stillVideo (Q2Qc (7 # 4)) eq_refl Hctx)
    as (delivered & Hrun & _ & Hone).
  exists delivered. split; [exact Hrun|].
  apply Hone; [reflexivity|intros t; reflexivity].
Defined.

(** C7: whenever a run completes, the delivered keyframes have strictly
    increasing times, consecutive ones at least the sample interval 0.5
    apart; and a run over a source of finite duration does complete. *)
Theorem keyframe_times_spaced (video : VideoSource) :
  (forall fuel delivered,
     startProcessing video fuel = Some delivered -> spaced delivered)
  /\ (forall d, duration video = Num d ->
        exists delivered,
          startProcessing video (S (sampleCount d)) = Some delivered).
Proof.
  split.
  - intros fuel delivered Hrun.
    apply (run_spaced video fuel 0 initialState delivered);
      [symmetry; apply timeAt_0| |exact Hrun].
    split; [intros i a b Ha; done|intros a Ha; done].
  - intros d Hd.
    apply (run_completes video d Hd (sampleCount d) 0 initialState);
      [symmetry; apply timeAt_0|lia].
Qed.

Lemma keyframe_times_spaced_witness :
  exists delivered,
    startProcessing flickerVideo 5 = Some delivered
    /\ length delivered = 4%nat
    /\ spaced delivered.
Proof.
  destruct (startProcessing flickerVideo 5) as [delivered|] eqn:Hrun.
  - exists delivered. split; [reflexivity|]. split.
    + vm_compute in Hrun. injection Hrun as <-. reflexivity.
    + exact (proj1 (keyframe_times_spaced flickerVideo) 5%nat delivered Hrun).
  - vm_compute in Hrun. discriminate Hrun.
Defined.

(** ** The storyboard compositor *)

Lemma omap_length_le {A B : Type} (f : A -> option B) (l : list A) :
  (length (omap f l) <= length l)%nat.
Proof.
  induction l as [|a l IH]; [reflexivity|].
  cbn [omap list_omap]. destruct (f a); simpl; lia.
Qed.

Section CompositorFacts.

Variable getContext : nat -> bool.
Variable loadImage : jsstring -> option (nat * nat).
Variable measureText : jsstring -> number.

(** [wrap_loop] only appends caption lines to the calls made so far. *)
Lemma wrap_loop_appends x maxWidth lineHeight rest :
  forall n line y lineCount ctx,
  exists added,
    (wrap_loop measureText x maxWidth lineHeight rest n line y lineCount ctx).2
    = ctx ++ added
    /\ Forall (fun c => exists text x' y', c = FillText fontMain text x' y')
              added
    /\ (lineCount <= 4 -> length added <= 5 - lineCount)%nat.
Proof.
  induction rest as [|c rest IH]; intros n line y lineCount ctx.
  - exists []. cbn [wrap_loop snd]. rewrite app_nil_r.
    repeat split; [constructor|simpl; lia].
  - cbn [wrap_loop].
    destruct (gt (measureText (line ++ [c])) maxWidth && bool_decide (0 < n)%nat).
    + destruct (bool_decide (4 < S lineCount)%nat) eqn:Hbreak.
      * exists [FillText fontMain line x y]. cbn [snd].
        repeat split; [repeat constructor; eauto|].
        apply bool_decide_eq_true in Hbreak. simpl. lia.
      * apply bool_decide_eq_false in Hbreak.
        destruct (IH (S n) [c] (add y lineHeight) (S lineCount)
                     (ctx ++ [FillText fontMain line x y]))
          as (added & -> & Hall & Hlen).
        exists (FillText fontMain line x y :: added).
        rewrite <- app_assoc. repeat split; [constructor; eauto|].
        intros _. simpl. lia.
    + destruct (IH (S n) (line ++ [c]) y lineCount ctx)
        as (added & -> & Hall & Hlen).
      exists added. repeat split; done.
Qed.

Lemma wrapText_appends ctx text x y maxWidth lineHeight :
  exists added,
    wrapText measureText ctx text x y maxWidth lineHeight = ctx ++ added
    /\ Forall (fun c => exists text x' y', c = FillText fontMain text x' y')
              added
    /\ (length added <= 6)%nat.
Proof.
  unfold wrapText.
  destruct (wrap_loop_appends x maxWidth lineHeight text 0 [] y 0 ctx)
    as (added & Hctx & Hall & Hlen).
  destruct (wrap_loop measureText x maxWidth lineHeight text 0 [] y 0 ctx)
    as [[line y'] ctx'].
  cbn [snd] in Hctx. subst ctx'.
  exists (added ++ [FillText fontMain line x y']).
  rewrite <- app_assoc. repeat split.
  - apply Forall_app. split; [done|]. repeat constructor. eauto.
  - rewrite length_app. simpl. lia.
Qed.

(** The caption never draws more than six lines. *)
Lemma wrapText_line_bound text x y maxWidth lineHeight :
  (length (textLines (wrapText measureText [] text x y maxWidth lineHeight))
   <= 6)%nat.
Proof.
  destruct (wrapText_appends [] text x y maxWidth lineHeight)
    as (added & -> & _ & Hlen).
  unfold textLines. cbn [app]. etrans; [apply omap_length_le|]. exact Hlen.
Qed.

(** A reading of the calls that does not look at caption lines is blind
    to what [wrapText] adds. *)
Lemma omap_caption_lines {A : Type} (f : canvas_call -> option A) added :
  (forall text x y, f (FillText fontMain text x y) = None) ->
  Forall (fun c => exists text x' y', c = FillText fontMain text x' y')
         added ->
  omap f added = [].
Proof.
  intros Hf. induction 1 as [|c added (text & x & y & ->) _ IH];
    [reflexivity|].
  cbn [omap list_omap]. by rewrite Hf.
Qed.

Lemma drawFrame_shotNumbers i j frame ctx :
  shotNumbers (drawFrame loadImage measureText i j frame ctx)
  = shotNumbers ctx ++ [toString (num (Z.of_nat (i + j + 1)))].
Proof.
  unfold drawFrame. cbv zeta.
  match goal with
  | |- context [wrapText _ ?c ?t ?x ?y ?mw ?lh] =>
      destruct (wrapText_appends c t x y mw lh) as (added & -> & Hall & _)
  end.
  unfold shotNumbers. rewrite !omap_app.
  rewrite (omap_caption_lines _ added) by done.
  rewrite app_nil_r. f_equal.
  destruct (loadImage (imageUrl frame)) as [[imgW imgH]|];
    [destruct (coverFit imgW imgH) as [[[drawW drawH] offX] offY]|];
    rewrite ?omap_app; cbn; by rewrite ?app_nil_r.
Qed.

Lemma drawFrame_occupiedCells i j frame ctx :
  length (occupiedCells (drawFrame loadImage measureText i j frame ctx))
  = S (length (occupiedCells ctx)).
Proof.
  unfold drawFrame. cbv zeta.
  match goal with
  | |- context [wrapText _ ?c ?t ?x ?y ?mw ?lh] =>
      destruct (wrapText_appends c t x y mw lh) as (added & -> & Hall & _)
  end.
  unfold occupiedCells. rewrite !omap_app.
  rewrite (omap_caption_lines _ added) by done.
  destruct (loadImage (imageUrl frame)) as [[imgW imgH]|];
    [destruct (coverFit imgW imgH) as [[[drawW drawH] offX] offY]|];
    rewrite ?omap_app, !length_app; cbn; lia.
Qed.

Lemma drawPage_cells projectName i pageFrames :
  let page := drawPage loadImage measureText projectName i pageFrames in
  shotNumbers page
  = List.map (fun j => toString (num (Z.of_nat (i + j + 1))))
             (seq 0 (length pageFrames))
  /\ length (occupiedCells page) = length pageFrames.
Proof.
  intros page. subst page. unfold drawPage. cbv zeta.
  apply (for_range_inv
    (fun m ctx =>
       shotNumbers ctx
       = List.map (fun j => toString (num (Z.of_nat (i + j + 1)))) (seq 0 m)
       /\ length (occupiedCells ctx) = m)).
  - split; reflexivity.
  - intros m ctx Hm [Hshots Hcells].
    destruct (lookup_lt_is_Some_2 pageFrames m Hm) as [frame ->].
    rewrite drawFrame_shotNumbers, drawFrame_occupiedCells, Hshots, Hcells.
    split; [|reflexivity].
    rewrite seq_S, map_app. reflexivity.
Qed.

Hypothesis context_available : forall i, getContext i = true.

Lemma generateStoryboardImages_pages frames projectName :
  generateStoryboardImages getContext loadImage measureText frames projectName
  = List.map
      (fun k => drawPage loadImage measureText projectName (k * 12)
                  (take 12 (drop (k * 12) frames)))
      (seq 0 ((length frames + 11) / 12)).
Proof.
  unfold generateStoryboardImages, framesPerPage.
  replace ((length frames + 11) / 12)%nat
    with (iterations 0 (length frames) 12)
    by (unfold iterations; by rewrite Nat.sub_0_r).
  apply (for_loop_inv
    (fun m pages =>
       pages = List.map
                 (fun k => drawPage loadImage measureText projectName (k * 12)
                             (take 12 (drop (k * 12) frames)))
                 (seq 0 m))); [lia|lia|reflexivity|].
  intros m pages Hm ->. rewrite context_available.
  rewrite seq_S, map_app. reflexivity.
Qed.

End CompositorFacts.

Lemma map_seq_from {B : Type} (h : nat -> B) (a n : nat) :
  List.map (fun j => h (a + j)%nat) (seq 0 n) = List.map h (seq a n).
Proof.
  revert a. induction n as [|n IH]; intros a; [reflexivity|].
  cbn [seq List.map]. f_equal; [f_equal; lia|].
  rewrite <- seq_shift, map_map, <- (IH (S a)).
  apply map_ext. intros j. f_equal. lia.
Qed.

(** Chunks of twelve laid end to end give back the sequence. *)
Lemma chunks_concat {A B : Type} (h : nat -> B) (frames : list A) (pages : nat) :
  concat (List.map
            (fun k => List.map h (seq (k * 12)
                                      (length (take 12 (drop (k * 12) frames)))))
            (seq 0 pages))
  = List.map h (seq 0 (Nat.min (length frames) (12 * pages))).
Proof.
  induction pages as [|m IH]; [by rewrite Nat.mul_0_r, Nat.min_0_r|].
  rewrite seq_S, map_app, concat_app, IH. cbn [List.map concat Nat.add].
  rewrite app_nil_r, <- map_app. f_equal.
  rewrite length_take, length_drop.
  destruct (decide (length frames <= 12 * m)%nat) as [Hle|Hgt].
  - replace (Nat.min 12 (length frames - m * 12)) with O by lia.
    cbn [seq]. rewrite (app_nil_r (seq _ _)). f_equal. lia.
  - replace (Nat.min (length frames) (12 * m)) with (m * 12)%nat by lia.
    replace (Nat.min (length frames) (12 * S m))
      with (m * 12 + Nat.min 12 (length frames - m * 12))%nat by lia.
    by rewrite seq_app.
Qed.

(** C6: with a 2d context at hand for every page, [n] keyframes give
    [ceil(n / 12)] pages; page [k] is drawn from the frames
    [12 k .. 12 k + 11] in order and has one cell per frame; the shot
    numbers read across the pages are 1, 2, ..., n.  Twelve keyframes
    give one page, thirteen give two, the second with a single cell. *)
Theorem storyboard_pagination
    (getContext : nat -> bool) (loadImage : jsstring -> option (nat * nat))
    (measureText : jsstring -> number)
    (frames : list Keyframe) (projectName : jsstring) :
  (forall i, getContext i = true) ->
  let pages :=
    generateStoryboardImages getContext loadImage measureText
                             frames projectName in
  let n := length frames in
  length pages = ((n + 11) / 12)%nat
  /\ (forall k, (k < (n + 11) / 12)%nat ->
        exists page,
          pages !! k = Some page
          /\ page = drawPage loadImage measureText projectName (12 * k)
                             (take 12 (drop (12 * k) frames))
          /\ length (occupiedCells page) = Nat.min 12 (n - 12 * k))
  /\ concat (List.map shotNumbers pages)
     = List.map (fun shot => toString (num (Z.of_nat shot))) (seq 1 n)
  /\ (n = 12%nat -> length pages = 1%nat)
  /\ (n = 13%nat ->
      exists first second,
        pages = [first; second] /\ length (occupiedCells second) = 1%nat).
Proof.
  intros Hctx pages n. subst pages.
  rewrite (generateStoryboardImages_pages getContext loadImage measureText Hctx).
  fold n.
  set (page := fun k =>
         drawPage loadImage measureText projectName (k * 12)
                  (take 12 (drop (k * 12) frames))).
  assert (Hcells : forall k,
            length (occupiedCells (page k)) = Nat.min 12 (n - 12 * k)).
  { intros k. unfold page.
    rewrite (proj2 (drawPage_cells loadImage measureText projectName _ _)).
    rewrite length_take, length_drop. fold n. lia. }
  split; [by rewrite length_map, length_seq|].
  split.
  { intros k Hk. exists (page k). split; [|split].
    - rewrite list_lookup_fmap, lookup_seq_lt by exact Hk. reflexivity.
    - unfold page. by rewrite (Nat.mul_comm 12 k).
    - apply Hcells. }
  split.
  { rewrite map_map.
    rewrite (map_ext _ (fun k =>
               List.map (fun x => toString (num (Z.of_nat (x + 1))))
                        (seq (k * 12)
                             (length (take 12 (drop (k * 12) frames)))))).
    2:{ intros k. unfold page.
        rewrite (proj1 (drawPage_cells loadImage measureText projectName _ _)).
        apply (map_seq_from (fun x => toString (num (Z.of_nat (x + 1))))). }
    rewrite chunks_concat. fold n.
    replace (Nat.min n (12 * ((n + 11) / 12))) with n.
    2:{ pose proof (Nat.div_mod_eq (n + 11) 12).
        pose proof (Nat.mod_upper_bound (n + 11) 12). lia. }
    rewrite <- seq_shift, map_map.
    apply map_ext. intros x. by rewrite Nat.add_1_r. }
  split.
  { intros ->. reflexivity. }
  intros Hn. rewrite Hn. exists (page 0%nat), (page 1%nat).
  split; [reflexivity|]. rewrite Hcells, Hn. reflexivity.
Qed.

Lemma storyboard_pagination_witness :
  let pages :=
    generateStoryboardImages (fun _ => true) (fun _ => Some (1280, 720)%nat)
                             fullWidth thirteenFrames (lit "Demo") in
  (forall i : nat, (fun _ : nat => true) i = true)
  /\ length pages = 2%nat
  /\ concat (List.map shotNumbers pages)
     = List.map (fun shot => toString (num (Z.of_nat shot))) (seq 1 13).
Proof.
  intros pages.
  assert (Hctx : forall i : nat, (fun _ : nat => true) i = true)
    by (intros i; reflexivity).
  split; [exact Hctx|].
  destruct (storyboard_pagination (fun _ => true)
              (fun _ => Some (1280, 720)%nat) fullWidth thirteenFrames
              (lit "Demo") Hctx) as (Hlen & _ & Hshots & _).
  split; [exact Hlen|exact Hshots].
Defined.

(** C3, at a caption of 120 full-width characters in a cell 560 wide:
    five lines of 23 characters are flushed inside the loop, the loop
    breaks, and the call after the loop draws a sixth line holding the
    character that overflowed; 116 characters are drawn, 4 are dropped. *)
Theorem wrapText_draws_sixth_line :
  textLines (wrapText fullWidth [] (replicate 120 19968%N)
                      (num 60) (num 503) imageWidth (num 28))
  = replicate 5 (replicate 23 19968%N) ++ [[19968%N]].
Proof. vm_compute. reflexivity. Qed.

(** ** Cover fit *)

Lemma wider_than_box (a : number) :
  gt a (div imageWidth imageAreaHeight) = true ->
  gt (mul imageAreaHeight a) imageWidth = true
  /\ lt (div (sub imageWidth (mul imageAreaHeight a)) (num 2)) (num 0) = true.
Proof.
  replace imageWidth with (num 560) by by_compute.
  replace imageAreaHeight with (num 318) by by_compute.
  replace (div (num 560) (num 318)) with (Num (Q2Qc (280 # 159)))
    by by_compute.
  destruct a as [q| | |]; try (intros H; vm_compute in H; discriminate H).
  - unfold num. cbn [gt lt mul sub add neg div].
    replace (Qceqb (Qc_of_Z 2) 0%Qc) with false by by_compute.
    cbn [lt]. unfold Qcltb. rewrite !bool_decide_eq_true. intros H. to_Q.
    change (inject_Z 560) with (560 # 1)%Q.
    change (inject_Z 318) with (318 # 1)%Q.
    change (inject_Z 2) with (2 # 1)%Q.
    change (inject_Z 0) with (0 # 1)%Q.
    change (/ (2 # 1))%Q with (1 # 2)%Q.
    split; lra.
  - intros _. split; by_compute.
Qed.

(** C9: when the aspect ratio of the image exceeds that of the image box,
    the drawn height is the box height, the drawn width is the box height
    times the image aspect and exceeds the box width, the horizontal
    offset is half of box width minus drawn width and is negative, the
    vertical offset is 0; and the image is drawn between a [clip] on the
    rectangle of the box and the matching [restore].  (Exact arithmetic;
    the doubles agree for images of any realistic size.) *)
Theorem coverFit_wider_image (imgW imgH : nat) :
  let imgAspect := div (num (Z.of_nat imgW)) (num (Z.of_nat imgH)) in
  let boxAspect := div imageWidth imageAreaHeight in
  gt imgAspect boxAspect = true ->
  let drawW := mul imageAreaHeight imgAspect in
  let offX := div (sub imageWidth drawW) (num 2) in
  coverFit imgW imgH = (drawW, imageAreaHeight, offX, num 0)
  /\ gt drawW imageWidth = true
  /\ lt offX (num 0) = true
  /\ forall loadImage measureText i j frame ctx,
       loadImage (imageUrl frame) = Some (imgW, imgH) ->
       exists x y after,
         drawFrame loadImage measureText i j frame ctx
         = ctx ++ [StrokeRect x y imageWidth imageAreaHeight;
                   Save; BeginPath; Rect x y imageWidth imageAreaHeight; Clip;
                   DrawImage (imageUrl frame) (add x offX) (add y (num 0))
                             drawW imageAreaHeight;
                   Restore] ++ after.
Proof.
  intros imgAspect boxAspect Hwider drawW offX.
  assert (Hfit : coverFit imgW imgH = (drawW, imageAreaHeight, offX, num 0)).
  { unfold coverFit. cbv zeta. fold imgAspect boxAspect. by rewrite Hwider. }
  destruct (wider_than_box imgAspect Hwider) as [Hw Hoff].
  split; [exact Hfit|]. split; [exact Hw|]. split; [exact Hoff|].
  intros loadImage measureText i j frame ctx Hload.
  unfold drawFrame. cbv zeta. rewrite Hload, Hfit.
  match goal with
  | |- context [wrapText _ ?c ?t ?x ?y ?mw ?lh] =>
      destruct (wrapText_appends measureText c t x y mw lh)
        as (added & -> & _ & _)
  end.
  eexists _, _, _. rewrite <- !app_assoc. cbn [app]. reflexivity.
Qed.

Lemma coverFit_wider_image_witness :
  gt (div (num (Z.of_nat 1280)) (num (Z.of_nat 720)))
     (div imageWidth imageAreaHeight) = true
  /\ coverFit 1280 720 = (ratio 1696 3, num 318, ratio (-8) 3, num 0).
Proof.
  assert (Hwider : gt (div (num (Z.of_nat 1280)) (num (Z.of_nat 720)))
                      (div imageWidth imageAreaHeight) = true)
    by (vm_compute; reflexivity).
  split; [exact Hwider|].
  destruct (coverFit_wider_image 1280 720 Hwider) as (-> & _).
  by_compute.
Defined.

(** ** CSV export *)

Lemma decimal_nonempty z : decimal z <> [].
Proof.
  unfold decimal, lit. destruct (Z.to_int z) as [u|u]; [|discriminate].
  destruct u; discriminate.
Qed.

Lemma toString_index (index : nat) :
  toString (num (Z.of_nat (index + 1))) = decimal (Z.of_nat index + 1).
Proof.
  unfold toString, num. change (this (Qc_of_Z ?z)) with (inject_Z z).
  rewrite Qfloor_Z. f_equal. lia.
Qed.

Lemma formatTime_nonempty t : formatTime t <> [].
Proof.
  unfold formatTime. destruct (isNaN t); [discriminate|].
  destruct (toString _); discriminate.
Qed.

Lemma csvContent_rows (frames : list Keyframe) :
  csvContent frames
  = [65279%N] ++ lit "Shot No.,Timecode,Description" ++ [10%N]
    ++ concat (imap csvRow frames).
Proof.
  unfold csvContent. cbv zeta.
  assert (Hgen : forall k (l : list Keyframe) acc,
            fold_left (fun csvContent '(index, frame) =>
                         csvContent ++ csvRow index frame)
                      (imap (fun index frame => ((k + index)%nat, frame)) l) acc
            = acc ++ concat (imap (fun index => csvRow (k + index)) l)).
  { intros k l. revert k. induction l as [|frame l IH]; intros k acc.
    - simpl. by rewrite app_nil_r.
    - cbn [imap fold_left concat].
      rewrite (imap_ext _ (fun index frame => ((S k + index)%nat, frame)) l).
      2:{ intros i x _. cbn. by rewrite Nat.add_succ_r. }
      rewrite IH, <- app_assoc. do 3 f_equal.
      apply imap_ext. intros i x _. unfold compose.
      by rewrite Nat.add_succ_r. }
  etrans; [apply (Hgen 0%nat)|]. by rewrite <- !app_assoc.
Qed.

(** C10: a keyframe without caption gives the row
    [<shot>,<timecode>,] followed by a line feed: the decimal of its
    index plus one, the formatted time, and nothing after the second
    comma (no quotes, no placeholder); and that row is part of the
    exported text. *)
Theorem csv_row_without_caption (frames : list Keyframe) (index : nat)
    (frame : Keyframe) :
  frames !! index = Some frame ->
  caption frame = None ->
  let shot := decimal (Z.of_nat index + 1) in
  let timecode := formatTime (time frame) in
  csvRow index frame = shot ++ lit "," ++ timecode ++ lit "," ++ [10%N]
  /\ shot <> [] /\ timecode <> []
  /\ exists before after,
       csvContent frames = before ++ csvRow index frame ++ after.
Proof.
  intros Hframe Hcaption shot timecode.
  split; [|split; [apply decimal_nonempty|split; [apply formatTime_nonempty|]]].
  - unfold csvRow. rewrite Hcaption, toString_index. reflexivity.
  - rewrite csvContent_rows.
    assert (Hrow : imap csvRow frames !! index = Some (csvRow index frame))
      by (by rewrite list_lookup_imap, Hframe).
    apply list_elem_of_lookup_2, list_elem_of_split in Hrow.
    destruct Hrow as (l1 & l2 & ->).
    rewrite concat_app. cbn [concat].
    exists ([65279%N] ++ lit "Shot No.,Timecode,Description" ++ [10%N]
              ++ concat l1), (concat l2).
    by rewrite <- !app_assoc.
Qed.

Lemma csv_row_without_caption_witness :
  thirteenFrames !! 2%nat = Some (thirteenFrame 2)
  /\ caption (thirteenFrame 2) = None
  /\ csvRow 2 (thirteenFrame 2) = lit "3,0:01,"%string ++ [10%N].
Proof.
  split; [reflexivity|]. split; [reflexivity|].
  destruct (csv_row_without_caption thirteenFrames 2 (thirteenFrame 2)
              eq_refl eq_refl) as (-> & _).
  vm_compute. reflexivity.
Defined.


(* ================================================================== *)
(** * Further properties of the code *)
(* ================================================================== *)

(** ** More on calculateFrameDifference *)

Lemma for_loop_ext {S : Type} fuel i stop step (body1 body2 : nat -> S -> S) s :
  (forall j t, body1 j t = body2 j t) ->
  for_loop fuel i stop step body1 s = for_loop fuel i stop step body2 s.
Proof.
  intros Hext. revert i s. induction fuel as [|fuel IH]; intros i s;
    [reflexivity|].
  cbn [for_loop]. destruct (decide (i < stop)%nat); [|reflexivity].
  by rewrite Hext, IH.
Qed.

Lemma sub_num a b : sub (num a) (num b) = num (a - b).
Proof.
  unfold sub, neg, add, num. f_equal.
  by rewrite Z2Qc_inj_sub.
Qed.

Lemma Qcltb_num_0 a : Qcltb (Qc_of_Z a) 0%Qc = bool_decide (a < 0).
Proof.
  unfold Qcltb. apply bool_decide_ext.
  rewrite <- Z2Qc_inj_0. symmetry. apply Z2Qc_inj_lt.
Qed.

Lemma abs_num a : abs (num a) = num (Z.abs a).
Proof.
  unfold abs, num. rewrite Qcltb_num_0. f_equal.
  case_bool_decide.
  - rewrite <- Z2Qc_inj_opp. f_equal. lia.
  - f_equal. lia.
Qed.

Lemma abs_sub_swap (a b : number) : abs (sub a b) = abs (sub b a).
Proof.
  destruct a as [x| | |], b as [y| | |]; try reflexivity.
  unfold sub, neg, add, abs. f_equal.
  assert (Hopp : (y + - x = - (x + - y))%Qc) by ring.
  rewrite Hopp. set (d := (x + - y)%Qc).
  unfold Qcltb. repeat case_bool_decide; try reflexivity.
  - exfalso. to_Q. lra.
  - symmetry. apply Qcopp_involutive.
  - apply Qc_is_canon. to_Q. lra.
Qed.

(** X1: for buffers of equal length the metric does not depend on the
    order of its arguments. *)
Theorem frame_difference_symmetric (data1 data2 : list Z) :
  length data1 = length data2 ->
  calculateFrameDifference data1 data2 = calculateFrameDifference data2 data1.
Proof.
  intros Hlen. unfold calculateFrameDifference. rewrite <- Hlen.
  f_equal. apply for_loop_ext. intros i diff. cbv zeta.
  by rewrite !(abs_sub_swap (byte_at data1 _)).
Qed.

Lemma frame_difference_symmetric_witness :
  length [10; 20; 30; 255] = length [40; 0; 35; 255]
  /\ calculateFrameDifference [10; 20; 30; 255] [40; 0; 35; 255]
     = calculateFrameDifference [40; 0; 35; 255] [10; 20; 30; 255].
Proof.
  split; [reflexivity|].
  apply frame_difference_symmetric. reflexivity.
Defined.

Lemma byte_at_in_range (data : list Z) i :
  (i < length data)%nat -> exists b, data !! i = Some b /\ byte_at data i = num b.
Proof.
  intros Hi. destruct (lookup_lt_is_Some_2 data i Hi) as [b Hb].
  exists b. split; [exact Hb|]. unfold byte_at. by rewrite Hb.
Qed.

Lemma pixel_count_quotient (p : nat) :
  div (num (Z.of_nat (4 * p))) (num 4) = num (Z.of_nat p).
Proof.
  replace (Z.of_nat (4 * p)) with (Z.of_nat p * 4) by lia.
  by apply div_num_exact.
Qed.

(** X2: a frame of at least one pixel compared with itself scores 0. *)
Theorem frame_difference_identical (p : nat) (data : list Z) :
  (0 < p)%nat -> length data = (4 * p)%nat ->
  calculateFrameDifference data data = num 0.
Proof.
  intros Hp Hlen. unfold calculateFrameDifference.
  match goal with
  | |- div ?loop _ = _ => assert (Hsum : loop = num 0)
  end.
  { apply (for_loop_inv (fun _ s => s = num 0)); [lia|lia|done|].
    intros m s Hm ->. cbv zeta. change (4 * 4)%nat with 16%nat in *.
    destruct (byte_at_in_range data (m * 16)) as (r & _ & ->); [lia|].
    destruct (byte_at_in_range data (m * 16 + 1)) as (g & _ & ->); [lia|].
    destruct (byte_at_in_range data (m * 16 + 2)) as (b & _ & ->); [lia|].
    rewrite !sub_num, !abs_num, !add_num. f_equal. lia. }
  rewrite Hsum, Hlen, pixel_count_quotient.
  rewrite <- (Z.mul_0_l (Z.of_nat p)) at 1.
  apply div_num_exact. lia.
Qed.

Lemma frame_difference_identical_witness :
  (0 < 2)%nat /\ length [1; 2; 3; 255; 9; 8; 7; 255] = (4 * 2)%nat
  /\ calculateFrameDifference [1; 2; 3; 255; 9; 8; 7; 255]
                              [1; 2; 3; 255; 9; 8; 7; 255] = num 0.
Proof.
  split; [lia|]. split; [reflexivity|].
  apply (frame_difference_identical 2); [lia|reflexivity].
Defined.

Lemma Qc_div_le_mono (a b c : Z) :
  0 < c -> a <= b -> (Qc_of_Z a / Qc_of_Z c <= Qc_of_Z b / Qc_of_Z c)%Qc.
Proof.
  intros Hc Hab. to_Q.
  apply Qmult_le_compat_r.
  - rewrite <- Zle_Qle. exact Hab.
  - apply Qinv_le_0_compat. change 0%Q with (inject_Z 0).
    rewrite <- Zle_Qle. lia.
Qed.

(** X3: on two frames of [p >= 1] pixels whose bytes lie in 0..255 the
    metric is a finite number between 0 and the score of white against
    black, [765 * ceil(p / 4) / p]; it is never NaN, infinite or
    negative there. *)
Theorem frame_difference_bounded (p : nat) (data1 data2 : list Z) :
  (0 < p)%nat ->
  length data1 = (4 * p)%nat -> length data2 = (4 * p)%nat ->
  Forall (fun b => 0 <= b <= 255) data1 ->
  Forall (fun b => 0 <= b <= 255) data2 ->
  exists q,
    calculateFrameDifference data1 data2 = Num q
    /\ (0 <= q)%Qc
    /\ (q <= Qc_of_Z (765 * Z.of_nat ((p + 3) / 4)) / Qc_of_Z (Z.of_nat p))%Qc.
Proof.
  intros Hp Hlen1 Hlen2 Hb1 Hb2. unfold calculateFrameDifference.
  match goal with
  | |- exists q, div ?loop _ = _ /\ _ =>
      assert (Hsum : exists S, loop = num S
                /\ 0 <= S <= 765 * Z.of_nat (iterations 0 (4 * p) 16))
  end.
  { rewrite Hlen1.
    apply (for_loop_inv
             (fun m s => exists S, s = num S /\ 0 <= S <= 765 * Z.of_nat m));
      [lia|lia|exists 0; split; [done|lia]|].
    intros m s Hm (S & -> & HS). cbv zeta. change (4 * 4)%nat with 16%nat in *.
    assert (Hread : forall j, (j < 4 * p)%nat ->
              exists a b, byte_at data1 j = num a /\ byte_at data2 j = num b
                          /\ 0 <= Z.abs (a - b) <= 255).
    { intros j Hj.
      destruct (byte_at_in_range data1 j) as (a & Ha & ->); [lia|].
      destruct (byte_at_in_range data2 j) as (b & Hb & ->); [lia|].
      exists a, b. repeat split; try lia.
      pose proof (proj1 (Forall_lookup _ _) Hb1 j a Ha).
      pose proof (proj1 (Forall_lookup _ _) Hb2 j b Hb). cbv beta in *. lia. }
    destruct (Hread (m * 16)%nat) as (r1 & r2 & -> & -> & Hr); [lia|].
    destruct (Hread (m * 16 + 1)%nat) as (g1 & g2 & -> & -> & Hg); [lia|].
    destruct (Hread (m * 16 + 2)%nat) as (b1 & b2 & -> & -> & Hb); [lia|].
    rewrite !sub_num, !abs_num, !add_num.
    eexists. split; [reflexivity|]. lia. }
  destruct Hsum as (S & -> & HS).
  assert (Hit : iterations 0 (4 * p) 16 = ((p + 3) / 4)%nat).
  { unfold iterations. rewrite Nat.sub_0_r.
    pose proof (Nat.div_mod_eq (4 * p + (16 - 1)) 16).
    pose proof (Nat.mod_upper_bound (4 * p + (16 - 1)) 16).
    pose proof (Nat.div_mod_eq (p + 3) 4).
    pose proof (Nat.mod_upper_bound (p + 3) 4).
    lia. }
  rewrite Hit in HS.
  rewrite Hlen1, pixel_count_quotient.
  exists (Qc_of_Z S / Qc_of_Z (Z.of_nat p))%Qc. split; [|split].
  - unfold div, num, Qceqb.
    rewrite bool_decide_eq_false_2; [reflexivity|].
    apply Qc_of_Z_nonzero. lia.
  - replace 0%Qc with (Qc_of_Z 0 / Qc_of_Z (Z.of_nat p))%Qc.
    + apply Qc_div_le_mono; lia.
    + rewrite Z2Qc_inj_0. unfold Qcdiv. apply Qcmult_0_l.
  - apply Qc_div_le_mono; lia.
Qed.

Lemma frame_difference_bounded_witness :
  exists q,
    calculateFrameDifference [10; 20; 30; 255] [40; 0; 35; 255] = Num q
    /\ (0 <= q)%Qc
    /\ (q <= Qc_of_Z (765 * Z.of_nat ((1 + 3) / 4)) / Qc_of_Z (Z.of_nat 1))%Qc.
Proof.
  apply (frame_difference_bounded 1); [lia|reflexivity|reflexivity| |];
    repeat constructor; lia.
Defined.

(** ** More on boxBlur *)

Lemma pass_length {A : Type} (g : nat -> nat -> A) (w h : nat) (a : list A) :
  length (for_range h (fun y a =>
            for_range w (fun x a => <[ (y * w + x)%nat := g y x ]> a) a) a)
  = length a.
Proof.
  apply (for_range_inv (fun _ (b : list A) => length b = length a));
    [reflexivity|].
  intros y b _ Hb.
  apply (for_range_inv (fun _ (c : list A) => length c = length a));
    [exact Hb|].
  intros x c _ Hc. by rewrite length_insert.
Qed.

(** X4: the blur returns as many samples as it was given, whatever the
    width, height and radius it is called with. *)
Theorem boxBlur_length (data : list number) (w h : nat) (radius : Z) :
  length (boxBlur data w h radius) = length data.
Proof.
  unfold boxBlur, verticalPass. cbv zeta.
  rewrite pass_length. apply length_replicate.
Qed.

Lemma cells_eq {A : Type} (w h : nat) (a b : list A) :
  length a = (w * h)%nat -> length b = (w * h)%nat ->
  (forall y x, (y < h)%nat -> (x < w)%nat ->
               a !! (y * w + x)%nat = b !! (y * w + x)%nat) ->
  a = b.
Proof.
  intros Ha Hb Hcells. apply list_eq. intros idx.
  destruct (decide (idx < w * h)%nat) as [Hlt|Hge].
  - assert (Hw : (0 < w)%nat) by nia.
    pose proof (Nat.div_mod_eq idx w) as Hd.
    pose proof (Nat.mod_upper_bound idx w ltac:(lia)) as Hu.
    replace idx with ((idx / w) * w + idx mod w)%nat by lia.
    apply Hcells; [|exact Hu].
    apply Nat.Div0.div_lt_upper_bound. lia.
  - rewrite !lookup_ge_None_2; [done| |]; lia.
Qed.

Lemma kernel_mean_0 (sample : Z -> number) : kernel_mean 0 sample = sample 0.
Proof.
  unfold kernel_mean.
  change (seqZ (- 0) (2 * 0 + 1)) with [0]. cbn [fold_left].
  destruct (sample 0) as [q| | |]; try reflexivity.
  unfold add, div, num.
  replace (Qceqb (Qc_of_Z (0 + 1)) 0%Qc) with false by by_compute.
  f_equal. change (0 + 1) with 1. rewrite Z2Qc_inj_1, Z2Qc_inj_0.
  rewrite Qcplus_0_l. unfold Qcdiv.
  replace (/ 1)%Qc with 1%Qc by by_compute. apply Qcmult_1_r.
Qed.

(** X5: at radius 0 the blur returns its input, sample for sample
    (NaN and infinite samples included). *)
Theorem boxBlur_radius_0 (data : list number) (w h : nat) :
  length data = (w * h)%nat -> boxBlur data w h 0 = data.
Proof.
  intros Hlen. unfold boxBlur. cbv zeta. rewrite Hlen.
  assert (Hh : horizontalPass data w h 0 (replicate (w * h) (num 0)) = data).
  { unfold horizontalPass.
    pose (g := fun (y x : nat) =>
      kernel_mean 0 (fun k =>
        let px := Z.min (Z.of_nat w - 1) (Z.max 0 (Z.of_nat x + k)) in
        float_at data (Z.to_nat (Z.of_nat y * Z.of_nat w + px)))).
    destruct (fill_rows g w h (replicate (w * h) (num 0))
                        (length_replicate _ _)) as [Hl Hcells].
    apply (cells_eq w h); [exact Hl|exact Hlen|].
    intros y x Hy Hx.
    transitivity (Some (g y x)); [exact (Hcells y x Hy Hx)|].
    unfold g. rewrite kernel_mean_0. cbv zeta.
    replace (Z.to_nat (Z.of_nat y * Z.of_nat w
                       + Z.min (Z.of_nat w - 1) (Z.max 0 (Z.of_nat x + 0))))
      with (y * w + x)%nat by nia.
    unfold float_at.
    destruct (lookup_lt_is_Some_2 data (y * w + x)%nat) as [v ->]; [nia|done]. }
  rewrite Hh. unfold verticalPass.
  pose (g := fun (y x : nat) =>
    kernel_mean 0 (fun k =>
      let py := Z.min (Z.of_nat h - 1) (Z.max 0 (Z.of_nat y + k)) in
      float_at data (Z.to_nat (py * Z.of_nat w + Z.of_nat x)))).
  destruct (fill_rows g w h (replicate (w * h) (num 0))
                      (length_replicate _ _)) as [Hl Hcells].
  apply (cells_eq w h); [exact Hl|exact Hlen|].
  intros y x Hy Hx.
  transitivity (Some (g y x)); [exact (Hcells y x Hy Hx)|].
  unfold g. rewrite kernel_mean_0. cbv zeta.
  replace (Z.to_nat (Z.min (Z.of_nat h - 1) (Z.max 0 (Z.of_nat y + 0))
                     * Z.of_nat w + Z.of_nat x))
    with (y * w + x)%nat by nia.
  unfold float_at.
  destruct (lookup_lt_is_Some_2 data (y * w + x)%nat) as [v ->]; [nia|done].
Qed.

Lemma boxBlur_radius_0_witness :
  length [num 1; NaN; ratio 5 2; PosInf; num 0; num 7] = (3 * 2)%nat
  /\ boxBlur [num 1; NaN; ratio 5 2; PosInf; num 0; num 7] 3 2 0
     = [num 1; NaN; ratio 5 2; PosInf; num 0; num 7].
Proof.
  split; [reflexivity|].
  apply boxBlur_radius_0. reflexivity.
Defined.

(** ** More on applySketchEffect *)

Lemma grayscale_pixels (pixels : nat) (data : list Z) :
  length data = (4 * pixels)%nat ->
  let grayData := grayscale data (replicate pixels (num 0)) in
  length grayData = pixels
  /\ forall k, (k < pixels)%nat -> grayData !! k = Some (lumaOf data k).
Proof.
  intros Hlen grayData. subst grayData. unfold grayscale.
  pose (P := fun (m : nat) (g : list number) =>
    length g = pixels
    /\ forall k, (k < m)%nat -> g !! k = Some (lumaOf data k)).
  assert (Hinv : P (iterations 0 (length data) 4)
    (for_loop (length data) 0 (length data) 4
       (fun i grayData =>
          let gray :=
            add (add (mul luma_r (byte_at data i))
                     (mul luma_g (byte_at data (i + 1))))
                (mul luma_b (byte_at data (i + 2))) in
          <[ (i / 4)%nat := gray ]> grayData)
       (replicate pixels (num 0)))).
  { apply (for_loop_inv P); [lia|lia| |].
    - split; [apply length_replicate|]. intros; lia.
    - intros m g Hm [Hg Hdone]. cbv zeta.
      replace (m * 4 / 4)%nat with m by (rewrite Nat.div_mul; lia).
      replace (m * 4)%nat with (4 * m)%nat by lia.
      split; [by rewrite length_insert|].
      intros k Hk. destruct (decide (k = m)) as [->|Hne].
      + rewrite list_lookup_insert_eq by lia. reflexivity.
      + rewrite list_lookup_insert_ne by lia. apply Hdone. lia. }
  destruct Hinv as [Hl Hdone]. split; [exact Hl|].
  intros k Hk. apply Hdone. rewrite Hlen, iterations_exact by lia. exact Hk.
Qed.

Lemma colorDodge_pixels (pixels : nat) (grayData blurredGray : list number)
    (data : list Z) :
  length data = (4 * pixels)%nat ->
  let out := colorDodge grayData blurredGray data in
  length out = length data
  /\ forall k, (k < pixels)%nat ->
       out !! (4 * k)%nat = Some (dodgeOf grayData blurredGray k)
       /\ out !! (4 * k + 1)%nat = Some (dodgeOf grayData blurredGray k)
       /\ out !! (4 * k + 2)%nat = Some (dodgeOf grayData blurredGray k)
       /\ out !! (4 * k + 3)%nat = data !! (4 * k + 3)%nat.
Proof.
  intros Hlen out. subst out. unfold colorDodge.
  pose (P := fun (m : nat) (d : list Z) =>
    length d = length data
    /\ forall k, (k < pixels)%nat ->
         ((k < m)%nat ->
            d !! (4 * k)%nat = Some (dodgeOf grayData blurredGray k)
            /\ d !! (4 * k + 1)%nat = Some (dodgeOf grayData blurredGray k)
            /\ d !! (4 * k + 2)%nat = Some (dodgeOf grayData blurredGray k))
         /\ d !! (4 * k + 3)%nat = data !! (4 * k + 3)%nat).
  assert (Hinv : P (iterations 0 (length data) 4)
    (for_loop (length data) 0 (length data) 4
       (fun i data =>
          let pixelIndex := (i / 4)%nat in
          let base := float_at grayData pixelIndex in
          let blend := sub (num 255) (float_at blurredGray pixelIndex) in
          let result :=
            if strict_eq blend (num 255) then num 255
            else min (num 255)
                     (div (mul base (num 255)) (sub (num 255) blend)) in
          <[ (i + 2)%nat := toUint8Clamp result ]>
            (<[ (i + 1)%nat := toUint8Clamp result ]>
               (<[ i := toUint8Clamp result ]> data)))
       data)).
  { apply (for_loop_inv P); [lia|lia| |].
    - split; [done|]. intros k Hk. split; [lia|done].
    - intros m d Hm [Hd Hpix]. cbv zeta.
      assert (Hp : (m < pixels)%nat) by lia.
      replace (m * 4 / 4)%nat with m by (rewrite Nat.div_mul; lia).
      fold (dodgeOf grayData blurredGray m).
      split; [by rewrite !length_insert|].
      intros k Hk. destruct (Hpix k Hk) as [Hdone Halpha].
      rewrite !list_lookup_insert, !length_insert.
      split.
      + intros Hlt. destruct (decide (k = m)) as [->|Hne].
        * repeat split; repeat case_decide; try done; lia.
        * destruct Hdone as (H0 & H1 & H2); [lia|].
          repeat split; repeat case_decide; try done; lia.
      + repeat case_decide; try done; lia. }
  destruct Hinv as [Hl Hpix]. split; [exact Hl|].
  intros k Hk. destruct (Hpix k Hk) as [Hdone Halpha].
  destruct Hdone as (H0 & H1 & H2).
  - rewrite Hlen, iterations_exact by lia. exact Hk.
  - by repeat split.
Qed.

Lemma Qfloor_bounds (q : Qc) (lo hi : Z) :
  (Qc_of_Z lo <= q)%Qc -> (q < Qc_of_Z hi)%Qc -> lo <= Qfloor q < hi.
Proof.
  intros Hlo Hhi. to_Q. split.
  - rewrite <- (Qfloor_Z lo). by apply Qfloor_resp_le.
  - rewrite Zlt_Qlt. pose proof (Qfloor_le q). lra.
Qed.

Lemma toUint8Clamp_range (a : number) : 0 <= toUint8Clamp a <= 255.
Proof.
  destruct a as [q| | |]; cbn [toUint8Clamp]; try lia.
  unfold Qcleb. repeat case_bool_decide; try lia.
  assert (Hf : 0 <= Qfloor q < 255).
  { apply Qfloor_bounds.
    - apply Qclt_le_weak. rewrite Z2Qc_inj_0. by apply Qcnot_le_lt.
    - by apply Qcnot_le_lt. }
  unfold round_half_even. cbv zeta.
  repeat destruct (Qcltb _ _); try destruct (Z.even _); lia.
Qed.

(** X6: on every RGBA frame of [width * height] pixels the filter keeps
    the length and every alpha byte, and writes one byte in 0..255 into
    the red, green and blue channel of each pixel (a grey image). *)
Theorem sketch_output_is_grey (width height : nat) (data : list Z) :
  length data = (4 * (width * height))%nat ->
  let out := applySketchEffect width height data in
  length out = length data
  /\ forall k, (k < width * height)%nat ->
       exists v, 0 <= v <= 255
         /\ out !! (4 * k)%nat = Some v
         /\ out !! (4 * k + 1)%nat = Some v
         /\ out !! (4 * k + 2)%nat = Some v
         /\ out !! (4 * k + 3)%nat = data !! (4 * k + 3)%nat.
Proof.
  intros Hlen out. subst out. unfold applySketchEffect. cbv zeta.
  match goal with
  | |- context [colorDodge ?g ?b data] =>
      destruct (colorDodge_pixels (width * height) g b data Hlen)
        as [Hl Hpix]; set (gray := g) in *; set (blurred := b) in *
  end.
  split; [exact Hl|].
  intros k Hk. exists (dodgeOf gray blurred k).
  split; [apply toUint8Clamp_range|]. by apply Hpix.
Qed.

Lemma sketch_output_is_grey_witness :
  length [200; 10; 10; 255; 0; 90; 200; 7] = (4 * (2 * 1))%nat
  /\ (let out := applySketchEffect 2 1 [200; 10; 10; 255; 0; 90; 200; 7] in
      length out = length [200; 10; 10; 255; 0; 90; 200; 7]
      /\ forall k, (k < 2 * 1)%nat ->
           exists v, 0 <= v <= 255
             /\ out !! (4 * k)%nat = Some v
             /\ out !! (4 * k + 1)%nat = Some v
             /\ out !! (4 * k + 2)%nat = Some v
             /\ out !! (4 * k + 3)%nat
                = [200; 10; 10; 255; 0; 90; 200; 7] !! (4 * k + 3)%nat).
Proof.
  split; [reflexivity|].
  apply (sketch_output_is_grey 2 1 [200; 10; 10; 255; 0; 90; 200; 7]).
  reflexivity.
Defined.

Lemma dodge_of_flat (q : Qc) :
  toUint8Clamp
    (if strict_eq (sub (num 255) (Num q)) (num 255) then num 255
     else min (num 255)
              (div (mul (Num q) (num 255))
                   (sub (num 255) (sub (num 255) (Num q)))))
  = 255.
Proof.
  destruct (strict_eq (sub (num 255) (Num q)) (num 255)) eqn:Heq;
    [by_compute|].
  assert (Hq : q <> 0%Qc).
  { intros ->. revert Heq. by_compute. }
  assert (Hden : (Qc_of_Z 255 + - (Qc_of_Z 255 + - q) = q)%Qc) by ring.
  unfold sub, neg, add, mul, div, num. rewrite Hden.
  unfold Qceqb. rewrite bool_decide_eq_false_2 by exact Hq.
  rewrite (Qcmult_comm q), Qcdiv_mult_l by exact Hq.
  by_compute.
Qed.

(** X7: a frame of one flat colour, whatever the colour, comes out
    uniformly white: the luminance equals its own blur, so the dodge
    divides it by itself (or takes the saturating branch when it is 0);
    alpha is kept. *)
Theorem sketch_of_flat_colour_is_white (width height : nat) (r g b : Z)
    (data : list Z) :
  uniformColour (width * height) r g b data ->
  let out := applySketchEffect width height data in
  length out = length data
  /\ forall k, (k < width * height)%nat ->
       out !! (4 * k)%nat = Some 255
       /\ out !! (4 * k + 1)%nat = Some 255
       /\ out !! (4 * k + 2)%nat = Some 255
       /\ out !! (4 * k + 3)%nat = data !! (4 * k + 3)%nat.
Proof.
  intros [Hlen Hflat] out. subst out. unfold applySketchEffect. cbv zeta.
  set (l := (Q2Qc (299 # 1000) * Qc_of_Z r + Q2Qc (587 # 1000) * Qc_of_Z g
             + Q2Qc (114 # 1000) * Qc_of_Z b)%Qc).
  destruct (grayscale_pixels (width * height) data Hlen) as [Hgl Hgray].
  assert (Hg : grayscale data (replicate (width * height) (num 0))
               = replicate (width * height) (Num l)).
  { apply list_eq. intros k.
    destruct (decide (k < width * height)%nat) as [Hk|Hk].
    - rewrite lookup_replicate_2 by exact Hk. rewrite (Hgray k Hk).
      destruct (Hflat k Hk) as (Hr & Hgr & Hb).
      unfold lumaOf, byte_at. rewrite Hr, Hgr, Hb. reflexivity.
    - rewrite !lookup_ge_None_2; [done| |]; rewrite ?length_replicate; lia. }
  rewrite Hg, boxBlur_uniform by lia.
  destruct (colorDodge_pixels (width * height)
              (replicate (width * height) (Num l))
              (replicate (width * height) (Num l)) data Hlen) as [Hl Hpix].
  split; [exact Hl|].
  intros k Hk. destruct (Hpix k Hk) as (H0 & H1 & H2 & H3).
  assert (Hv : dodgeOf (replicate (width * height) (Num l))
                       (replicate (width * height) (Num l)) k = 255).
  { unfold dodgeOf. cbv zeta. rewrite float_at_replicate by exact Hk.
    apply dodge_of_flat. }
  rewrite Hv in H0, H1, H2. by repeat split.
Qed.

Lemma sketch_of_flat_colour_is_white_witness :
  uniformColour (2 * 1) 200 30 90 [200; 30; 90; 255; 200; 30; 90; 128]
  /\ (let out := applySketchEffect 2 1 [200; 30; 90; 255; 200; 30; 90; 128] in
      length out = length [200; 30; 90; 255; 200; 30; 90; 128]
      /\ forall k, (k < 2 * 1)%nat ->
           out !! (4 * k)%nat = Some 255
           /\ out !! (4 * k + 1)%nat = Some 255
           /\ out !! (4 * k + 2)%nat = Some 255
           /\ out !! (4 * k + 3)%nat
              = [200; 30; 90; 255; 200; 30; 90; 128] !! (4 * k + 3)%nat).
Proof.
  assert (Hflat : uniformColour (2 * 1) 200 30 90
                    [200; 30; 90; 255; 200; 30; 90; 128]).
  { split; [reflexivity|].
    intros k Hk. destruct k as [|[|k]]; [by repeat split|by repeat split|].
    simpl in Hk. lia. }
  split; [exact Hflat|].
  exact (sketch_of_flat_colour_is_white 2 1 200 30 90 _ Hflat).
Defined.

(** ** More on the scene sampler *)

Lemma run_never_completes (video : VideoSource) :
  (forall q, ge (Num q) (duration video) = false) ->
  forall fuel k st,
    processedTime st = timeAt k -> run video fuel st = None.
Proof.
  intros Hopen. induction fuel as [|fuel IH]; intros k st Ht; [reflexivity|].
  cbn [run].
  assert (Hge : ge (processedTime st) (duration video) = false)
    by (rewrite Ht; apply Hopen).
  destruct (processInterval_scheduled video st Hge)
    as (next & emitted & -> & Hnext & _).
  apply (IH (S k)). by rewrite Hnext, Ht, timeAt_succ.
Qed.

(** X8: when the duration of the source is NaN or +Infinity (metadata
    missing, or a stream without a known end), the test
    [processedTime >= duration] never holds and no chain of
    [processInterval] calls, however long, reaches completion: nothing is
    ever delivered. *)
Theorem sampler_open_ended_source (video : VideoSource) :
  duration video = NaN \/ duration video = PosInf ->
  forall fuel, startProcessing video fuel = None.
Proof.
  intros Hd fuel. unfold startProcessing.
  apply (run_never_completes video) with (k := 0%nat);
    [|symmetry; apply timeAt_0].
  intros q. destruct Hd as [-> | ->]; reflexivity.
Qed.

Lemma sampler_open_ended_source_witness :
  (duration openEndedVideo = NaN \/ duration openEndedVideo = PosInf)
  /\ startProcessing openEndedVideo 50 = None.
Proof.
  assert (Hd : duration openEndedVideo = NaN \/ duration openEndedVideo = PosInf)
    by (right; reflexivity).
  split; [exact Hd|].
  exact (sampler_open_ended_source openEndedVideo Hd 50%nat).
Defined.

Lemma selectAfter_all (video : VideoSource) (n : nat) :
  forall k,
    (forall j, (k <= j < k + n)%nat ->
       gt (calculateFrameDifference (frameData video (timeAt j))
                                    (frameData video (timeAt (S j))))
          threshold = true) ->
    selectAfter (frameData video (timeAt k)) (samplesOf video (S k) n)
    = List.map timeAt (seq (S k) n).
Proof.
  induction n as [|n IH]; intros k Hdiff; [reflexivity|].
  unfold samplesOf. cbn [seq List.map selectAfter].
  rewrite Hdiff by lia. f_equal.
  apply IH. intros j Hj. apply Hdiff. lia.
Qed.

(** X9: when every sample differs from the one before it by more than
    the threshold, every sample of the run becomes a keyframe (output
    canvas available, finite duration). *)
Theorem sampler_keeps_every_changing_sample (video : VideoSource) (d : Qc) :
  duration video = Num d ->
  (forall t, is_Some (snapshot video t)) ->
  (forall j, (S j < sampleCount d)%nat ->
     gt (calculateFrameDifference (frameData video (timeAt j))
                                  (frameData video (timeAt (S j))))
        threshold = true) ->
  exists delivered,
    startProcessing video (S (sampleCount d)) = Some delivered
    /\ List.map time delivered = List.map timeAt (seq 0 (sampleCount d)).
Proof.
  intros Hd Hctx Hdiff.
  destruct (startProcessing_select video d Hd Hctx)
    as (delivered & Hrun & Htimes).
  exists delivered. split; [exact Hrun|]. rewrite Htimes.
  destruct (sampleCount d) as [|n]; [reflexivity|].
  unfold samplesOf. cbn [seq List.map selectKeyframes]. f_equal.
  apply (selectAfter_all video n 0). intros j Hj. apply Hdiff. lia.
Qed.

Lemma sampler_keeps_every_changing_sample_witness :
  exists delivered,
    startProcessing flickerVideo (S (sampleCount (Qc_of_Z 2))) = Some delivered
    /\ List.map time delivered
       = List.map timeAt (seq 0 (sampleCount (Qc_of_Z 2))).
Proof.
  apply (sampler_keeps_every_changing_sample flickerVideo (Qc_of_Z 2)).
  - reflexivity.
  - intros t. simpl. eauto.
  - intros j Hj.
    assert (Hcases : j = 0%nat \/ j = 1%nat \/ j = 2%nat).
    { change (sampleCount (Qc_of_Z 2)) with 4%nat in Hj. lia. }
    destruct Hcases as [-> | [-> | ->]]; vm_compute; reflexivity.
Defined.

Lemma run_times_sampled (video : VideoSource) (d : Qc) :
  duration video = Num d ->
  forall fuel k st delivered,
    processedTime st = timeAt k ->
    Forall (fun kf => exists j, (j < sampleCount d)%nat /\ time kf = timeAt j)
           (frames st) ->
    run video fuel st = Some delivered ->
    Forall (fun kf => exists j, (j < sampleCount d)%nat /\ time kf = timeAt j)
           delivered.
Proof.
  intros Hd. induction fuel as [|fuel IH]; intros k st delivered Ht Hinv Hrun;
    [done|].
  cbn [run] in Hrun.
  destruct (ge (processedTime st) (duration video)) eqn:Hge.
  - rewrite processInterval_completed in Hrun by done.
    by injection Hrun as <-.
  - destruct (processInterval_scheduled video st Hge)
      as (next & emitted & Hstep & Hnext & _ & Hframes & Hrej & Hacc).
    rewrite Hstep in Hrun.
    apply (IH (S k) next delivered); [| |exact Hrun].
    + by rewrite Hnext, Ht, timeAt_succ.
    + rewrite Hframes. apply Forall_app. split; [exact Hinv|].
      assert (Hk : (k < sampleCount d)%nat).
      { rewrite Ht, Hd in Hge.
        destruct (decide (k < sampleCount d)%nat) as [Hlt|Hnlt]; [exact Hlt|].
        rewrite timeAt_done in Hge by lia. discriminate Hge. }
      destruct (accepts (lastFrameData st)
                        (frameData video (processedTime st))).
      * specialize (Hacc eq_refl).
        destruct (snapshot video (processedTime st)).
        -- destruct Hacc as (kf & -> & Hkf). repeat constructor.
           exists k. split; [exact Hk|]. by rewrite Hkf.
        -- rewrite Hacc. constructor.
      * rewrite (Hrej eq_refl). constructor.
Qed.

(** X10: every keyframe a run delivers was taken at one of its sample
    instants [j / 2] with [j] below the number of samples, hence at a
    time in [0, duration): no keyframe is stamped at or past the end of
    the source. *)
Theorem keyframe_times_within_duration (video : VideoSource) (d : Qc)
    (fuel : nat) (delivered : list Keyframe) :
  duration video = Num d ->
  startProcessing video fuel = Some delivered ->
  Forall (fun kf => exists j, (j < sampleCount d)%nat
                              /\ time kf = timeAt j
                              /\ (0 <= tq j)%Qc /\ (tq j < d)%Qc)
         delivered.
Proof.
  intros Hd Hrun.
  pose proof (run_times_sampled video d Hd fuel 0 initialState delivered
                (eq_sym timeAt_0) (Forall_nil_2 _) Hrun) as Hall.
  eapply Forall_impl; [exact Hall|].
  intros kf (j & Hj & Hkf). exists j. repeat split; try done.
  - unfold Qcle. rewrite this_tq. change (this 0%Qc) with 0%Q.
    assert (Hz : (0 <= Z.of_nat j)%Z) by lia.
    rewrite Zle_Qle in Hz. change (inject_Z 0) with 0%Q in Hz. lra.
  - pose proof (timeAt_pending j d Hj) as Hge.
    apply Qcnot_le_lt. intros Hle. apply ge_Num in Hle.
    unfold timeAt in Hge. congruence.
Qed.

Lemma keyframe_times_within_duration_witness :
  duration flickerVideo = Num (Qc_of_Z 2)
  /\ exists delivered,
       startProcessing flickerVideo 5 = Some delivered
       /\ Forall (fun kf => exists j, (j < sampleCount (Qc_of_Z 2))%nat
                                      /\ time kf = timeAt j
                                      /\ (0 <= tq j)%Qc
                                      /\ (tq j < Qc_of_Z 2)%Qc)
                 delivered.
Proof.
  split; [reflexivity|].
  destruct (startProcessing flickerVideo 5) as [delivered|] eqn:Hrun.
  - exists delivered. split; [reflexivity|].
    exact (keyframe_times_within_duration flickerVideo (Qc_of_Z 2) 5%nat
             delivered eq_refl Hrun).
  - vm_compute in Hrun. discriminate Hrun.
Defined.

(** *** Keyframe identifiers *)

Lemma lit_cons a s : lit (String a s) = N_of_ascii a :: lit s.
Proof. reflexivity. Qed.

Lemma lit_inj s1 s2 : lit s1 = lit s2 -> s1 = s2.
Proof.
  revert s2. induction s1 as [|a s1 IH]; intros [|b s2] Heq; try done.
  rewrite !lit_cons in Heq. injection Heq as Hab Hs.
  f_equal; [|by apply IH].
  rewrite <- (ascii_N_embedding a), <- (ascii_N_embedding b). by rewrite Hab.
Qed.

Lemma decimal_inj a b : decimal a = decimal b -> a = b.
Proof.
  unfold decimal. intros Heq. apply lit_inj in Heq.
  apply DecimalZ.to_int_inj.
  assert (Hparse : forall z,
            NilZero.int_of_string (NilZero.string_of_int (Z.to_int z))
            = Some (Z.to_int z)).
  { intros z. apply NilZero.isi; destruct z as [|p|p]; try discriminate;
      simpl; intros [= Hnil]; by apply (DecimalPos.Unsigned.to_uint_nonnil p). }
  pose proof (Hparse a) as Ha. rewrite Heq, Hparse in Ha. by injection Ha.
Qed.

Lemma digits_no_dot (d : Decimal.uint) :
  Forall (fun c => c <> 46%N) (lit (NilEmpty.string_of_uint d)).
Proof.
  induction d; cbn [NilEmpty.string_of_uint]; rewrite ?lit_cons;
    constructor; try done.
Qed.

Lemma decimal_no_dot z : Forall (fun c => c <> 46%N) (decimal z).
Proof.
  unfold decimal.
  assert (Hu : forall d, Forall (fun c => c <> 46%N)
                                (lit (NilZero.string_of_uint d))).
  { intros d. destruct d; try apply (digits_no_dot (_ _)).
    repeat constructor. done. }
  destruct (Z.to_int z) as [d|d]; cbn [NilZero.string_of_int]; [apply Hu|].
  rewrite lit_cons. constructor; [done|apply Hu].
Qed.

Lemma split_at_pivot {A : Type} (x : A) (l1 l2 r1 r2 : list A) :
  Forall (fun c => c <> x) l1 -> Forall (fun c => c <> x) l2 ->
  l1 ++ x :: r1 = l2 ++ x :: r2 -> l1 = l2 /\ r1 = r2.
Proof.
  revert l2. induction l1 as [|a l1 IH]; intros [|b l2] H1 H2 Heq.
  - by injection Heq.
  - injection Heq as -> _. by inversion H2.
  - injection Heq as -> _. by inversion H1.
  - injection Heq as -> Heq. inversion H1; inversion H2; subst.
    destruct (IH l2) as [-> ->]; done.
Qed.

Lemma toFixed2_timeAt (k : nat) :
  toFixed2 (timeAt k)
  = decimal (Z.of_nat k / 2) ++ lit "."
    ++ padStart2 (decimal (50 * (Z.of_nat k mod 2))).
Proof.
  unfold timeAt, toFixed2.
  assert (Hpos : Qcltb (tq k) 0%Qc = false).
  { unfold Qcltb. apply bool_decide_eq_false_2. apply Qcle_not_lt.
    unfold Qcle. rewrite this_tq. change (this 0%Qc) with 0%Q.
    assert (Hz : (0 <= Z.of_nat k)%Z) by lia.
    rewrite Zle_Qle in Hz. change (inject_Z 0) with 0%Q in Hz. lra. }
  rewrite Hpos. cbv zeta.
  assert (Hn : Qfloor (tq k * Qc_of_Z 100 + Q2Qc (1 # 2))%Qc
               = 50 * Z.of_nat k).
  { assert (Hb : 50 * Z.of_nat k
                 <= Qfloor (tq k * Qc_of_Z 100 + Q2Qc (1 # 2))%Qc
                 < 50 * Z.of_nat k + 1).
    { apply Qfloor_bounds; unfold tq; to_Q; rewrite ?inject_Z_plus, ?inject_Z_mult;
        change (inject_Z 100) with (100 # 1)%Q;
        change (inject_Z 50) with (50 # 1)%Q;
        change (inject_Z 1) with (1 # 1)%Q; lra. }
    lia. }
  rewrite Hn.
  pose proof (Z.div_mod (Z.of_nat k) 2 ltac:(lia)) as Hdm.
  pose proof (Z.mod_pos_bound (Z.of_nat k) 2 ltac:(lia)) as Hmb.
  replace (50 * Z.of_nat k / 100) with (Z.of_nat k / 2).
  2:{ apply (Z.div_unique _ _ _ (50 * (Z.of_nat k mod 2))); lia. }
  replace ((50 * Z.of_nat k) mod 100) with (50 * (Z.of_nat k mod 2)).
  2:{ apply (Z.mod_unique _ _ (Z.of_nat k / 2)); lia. }
  reflexivity.
Qed.

Lemma idAt_inj j k : idAt j = idAt k -> j = k.
Proof.
  unfold idAt. intros Heq. apply app_inv_head in Heq.
  rewrite !toFixed2_timeAt in Heq.
  change (lit ".") with [46%N] in Heq. cbn [app] in Heq.
  apply split_at_pivot in Heq; try apply decimal_no_dot.
  destruct Heq as [Hdiv Hmod]. apply decimal_inj in Hdiv.
  pose proof (Z.div_mod (Z.of_nat j) 2 ltac:(lia)) as Hj.
  pose proof (Z.div_mod (Z.of_nat k) 2 ltac:(lia)) as Hk.
  pose proof (Z.mod_pos_bound (Z.of_nat j) 2 ltac:(lia)) as Hjb.
  pose proof (Z.mod_pos_bound (Z.of_nat k) 2 ltac:(lia)) as Hkb.
  assert (Hcases : forall m, 0 <= m < 2 -> m = 0 \/ m = 1) by lia.
  destruct (Hcases _ Hjb) as [Hj0|Hj1], (Hcases _ Hkb) as [Hk0|Hk1];
    rewrite ?Hj0, ?Hj1, ?Hk0, ?Hk1 in Hmod; try lia;
    vm_compute in Hmod; discriminate Hmod.
Qed.

Lemma run_ids (video : VideoSource) :
  forall fuel k st delivered,
    processedTime st = timeAt k ->
    (exists js, List.map id (frames st) = List.map idAt js
                /\ NoDup js /\ Forall (fun j => (j < k)%nat) js) ->
    run video fuel st = Some delivered ->
    exists js, List.map id delivered = List.map idAt js /\ NoDup js.
Proof.
  induction fuel as [|fuel IH]; intros k st delivered Ht Hinv Hrun; [done|].
  cbn [run] in Hrun.
  destruct (ge (processedTime st) (duration video)) eqn:Hge.
  - rewrite processInterval_completed in Hrun by done.
    injection Hrun as <-. destruct Hinv as (js & Hids & Hnd & _). eauto.
  - unfold processInterval in Hrun. rewrite Hge in Hrun.
    destruct Hinv as (js & Hids & Hnd & Hlt).
    assert (Hmono : Forall (fun j => (j < S k)%nat) js)
      by (eapply Forall_impl; [exact Hlt|]; intros; simpl in *; lia).
    destruct (match lastFrameData st with
              | Some last =>
                  let diff :=
                    calculateFrameDifference last
                      (frameData video (processedTime st)) in
                  if gt diff threshold then true else false
              | None => true
              end);
      [destruct (snapshot video (processedTime st)) as [url|]|];
      cbv zeta iota beta in Hrun;
      (eapply (IH (S k)); [| |exact Hrun]; cbn [processedTime frames];
       [by rewrite Ht, timeAt_succ|]).
    + exists (js ++ [k]). split; [|split].
      * rewrite !map_app, Hids. cbn [List.map id]. by rewrite Ht.
      * apply NoDup_app. split; [exact Hnd|]. split; [|apply NoDup_singleton].
        intros j Hj Hk. apply list_elem_of_singleton in Hk. subst j.
        pose proof (proj1 (Forall_forall _ _) Hlt k Hj). simpl in *. lia.
      * apply Forall_app. split; [exact Hmono|]. repeat constructor.
    + exists js. by repeat split.
    + exists js. by repeat split.
Qed.

(** X11: the keyframes a run delivers carry pairwise distinct
    identifiers: the identifier is [frame-] followed by the sample time
    with two decimals, and no two samples share that text. *)
Theorem keyframe_ids_distinct (video : VideoSource) (fuel : nat)
    (delivered : list Keyframe) :
  startProcessing video fuel = Some delivered ->
  NoDup (List.map id delivered).
Proof.
  intros Hrun.
  destruct (run_ids video fuel 0 initialState delivered) as (js & -> & Hnd);
    [symmetry; apply timeAt_0| |exact Hrun|].
  - exists []. repeat split; constructor.
  - assert (Hinj : Inj eq eq idAt) by (intros j k; apply idAt_inj).
    by apply (NoDup_fmap_2 idAt).
Qed.

Lemma keyframe_ids_distinct_witness :
  exists delivered,
    startProcessing flickerVideo 5 = Some delivered
    /\ length delivered = 4%nat
    /\ NoDup (List.map id delivered).
Proof.
  destruct (startProcessing flickerVideo 5) as [delivered|] eqn:Hrun.
  - exists delivered. split; [reflexivity|]. split.
    + vm_compute in Hrun. injection Hrun as <-. reflexivity.
    + exact (keyframe_ids_distinct flickerVideo 5%nat delivered Hrun).
  - vm_compute in Hrun. discriminate Hrun.
Defined.

(** ** More on the storyboard compositor *)

Lemma generateStoryboardImages_filtered
    (getContext : nat -> bool) (loadImage : jsstring -> option (nat * nat))
    (measureText : jsstring -> number)
    (frames : list Keyframe) (projectName : jsstring) :
  generateStoryboardImages getContext loadImage measureText frames projectName
  = List.map
      (fun k => drawPage loadImage measureText projectName (k * 12)
                  (take 12 (drop (k * 12) frames)))
      (List.filter (fun k => getContext (k * 12)%nat)
                   (seq 0 ((length frames + 11) / 12))).
Proof.
  unfold generateStoryboardImages, framesPerPage.
  replace ((length frames + 11) / 12)%nat
    with (iterations 0 (length frames) 12)
    by (unfold iterations; by rewrite Nat.sub_0_r).
  apply (for_loop_inv
    (fun m pages =>
       pages = List.map
                 (fun k => drawPage loadImage measureText projectName (k * 12)
                             (take 12 (drop (k * 12) frames)))
                 (List.filter (fun k => getContext (k * 12)%nat) (seq 0 m))));
    [lia|lia|reflexivity|].
  intros m pages Hm ->.
  rewrite seq_S, List.filter_app, map_app. cbn [List.filter Nat.add].
  destruct (getContext (m * 12)%nat); cbn [List.map]; [reflexivity|].
  by rewrite app_nil_r.
Qed.

(** X12: a page whose canvas yields no 2d context is left out, and the
    pages that are produced are exactly those of the unhindered run for
    the same positions: same frames, same shot numbers, same page number
    in the header.  In particular no context at all gives no page. *)
Theorem storyboard_skips_pages_without_context
    (getContext : nat -> bool) (loadImage : jsstring -> option (nat * nat))
    (measureText : jsstring -> number)
    (frames : list Keyframe) (projectName : jsstring) :
  generateStoryboardImages getContext loadImage measureText frames projectName
  = List.map
      (fun k => drawPage loadImage measureText projectName (k * 12)
                  (take 12 (drop (k * 12) frames)))
      (List.filter (fun k => getContext (k * 12)%nat)
                   (seq 0 ((length frames + 11) / 12)))
  /\ ((forall i, getContext i = false) ->
      generateStoryboardImages getContext loadImage measureText
                               frames projectName = []).
Proof.
  split; [apply generateStoryboardImages_filtered|].
  intros Hnone. rewrite generateStoryboardImages_filtered.
  replace (List.filter (fun k => getContext (k * 12)%nat)
                       (seq 0 ((length frames + 11) / 12)))
    with (@nil nat); [reflexivity|].
  induction (seq 0 ((length frames + 11) / 12)) as [|k l IH]; [reflexivity|].
  cbn [List.filter]. rewrite Hnone. exact IH.
Qed.

Section CellLayout.

Variable loadImage : jsstring -> option (nat * nat).
Variable measureText : jsstring -> number.



End CellLayout.





Lemma storyboard_skips_pages_without_context_witness :
  List.map shotNumbers
    (generateStoryboardImages (fun i => bool_decide (i = 12%nat))
       (fun _ => Some (1280, 720)%nat) fullWidth thirteenFrames (lit "Demo"))
  = [[lit "13"]].
Proof.
  rewrite (proj1 (storyboard_skips_pages_without_context
                    (fun i => bool_decide (i = 12%nat))
                    (fun _ => Some (1280, 720)%nat) fullWidth thirteenFrames
                    (lit "Demo"))).
  vm_compute. reflexivity.
Defined.

(** *** Cover fit, both branches *)






(** *** Caption wrapping *)

Section WrapFacts.

Variable measureText : jsstring -> number.
Variables (x maxWidth lineHeight : number).

Lemma textLines_snoc ctx line y :
  textLines (ctx ++ [FillText fontMain line x y]) = textLines ctx ++ [line].
Proof. unfold textLines. by rewrite omap_app. Qed.

Lemma wrap_loop_text rest :
  forall n line y lineCount ctx,
    (lineCount <= 4)%nat ->
    let r := wrap_loop measureText x maxWidth lineHeight rest n line y
                       lineCount ctx in
    exists lines dropped,
      textLines r.2 = textLines ctx ++ lines
      /\ concat lines ++ r.1.1 ++ dropped = line ++ rest
      /\ (lineCount + length lines <= 5)%nat
      /\ ((lineCount + length lines < 5)%nat -> dropped = []).
Proof.
  induction rest as [|c rest IH]; intros n line y lineCount ctx Hlc r;
    subst r.
  - exists [], []. cbn [wrap_loop fst snd concat app length].
    repeat split; [by rewrite app_nil_r|lia].
  - cbn [wrap_loop].
    destruct (gt (measureText (line ++ [c])) maxWidth
              && bool_decide (0 < n)%nat).
    + case_bool_decide as Hbreak.
      * exists [line], rest. cbn [fst snd concat length].
        rewrite textLines_snoc, app_nil_r.
        repeat split; lia.
      * destruct (IH (S n) [c] (add y lineHeight) (S lineCount)
                     (ctx ++ [FillText fontMain line x y]))
          as (lines & dropped & Hlines & Htext & Hlen & Hdrop); [lia|].
        exists (line :: lines), dropped.
        rewrite Hlines, textLines_snoc, <- app_assoc.
        cbn [concat length]. rewrite <- app_assoc, Htext.
        repeat split; [lia|]. intros Hlt. apply Hdrop. lia.
    + destruct (IH (S n) (line ++ [c]) y lineCount ctx Hlc)
        as (lines & dropped & Hlines & Htext & Hlen & Hdrop).
      exists lines, dropped. rewrite Hlines, Htext, <- app_assoc.
      by repeat split.
Qed.

(** X15: the lines a caption is drawn in, read in order, spell out a
    prefix of the caption: nothing is reordered, repeated or inserted.
    When fewer than six lines are drawn the whole caption is there;
    only a caption that fills six lines can lose its tail. *)
Theorem wrapText_draws_a_prefix (ctx : list canvas_call) (text : jsstring)
    (y : number) :
  exists lines dropped,
    textLines (wrapText measureText ctx text x y maxWidth lineHeight)
    = textLines ctx ++ lines
    /\ concat lines ++ dropped = text
    /\ ((length lines < 6)%nat -> dropped = []).
Proof.
  unfold wrapText.
  destruct (wrap_loop_text text 0 [] y 0 ctx)
    as (lines & dropped & Hlines & Htext & Hlen & Hdrop); [lia|].
  destruct (wrap_loop measureText x maxWidth lineHeight text 0 [] y 0 ctx)
    as [[line y'] ctx'].
  cbn [fst snd] in *.
  exists (lines ++ [line]), dropped.
  rewrite textLines_snoc, Hlines, <- app_assoc.
  split; [reflexivity|]. split.
  - rewrite concat_app. cbn [concat]. by rewrite app_nil_r, <- app_assoc.
  - rewrite length_app. cbn [length]. intros Hlt. apply Hdrop. lia.
Qed.

(** A line fits when the measured width of its text does not exceed the
    width available. *)
Lemma wrap_loop_fits rest :
  forall n line y lineCount ctx,
    (n = 0%nat -> line = []) -> ((0 < n)%nat -> line <> []) ->
    ((2 <= length line)%nat -> gt (measureText line) maxWidth = false) ->
    let r := wrap_loop measureText x maxWidth lineHeight rest n line y
                       lineCount ctx in
    exists lines,
      textLines r.2 = textLines ctx ++ lines
      /\ Forall (fun l => l <> []
                   /\ ((2 <= length l)%nat ->
                       gt (measureText l) maxWidth = false)) lines
      /\ ((2 <= length r.1.1)%nat -> gt (measureText r.1.1) maxWidth = false)
      /\ (line ++ rest <> [] -> r.1.1 <> []).
Proof.
  induction rest as [|c rest IH]; intros n line y lineCount ctx H0 Hpos Hfit r;
    subst r.
  - exists []. cbn [wrap_loop fst snd]. rewrite !app_nil_r.
    repeat split; [constructor|exact Hfit|done].
  - cbn [wrap_loop].
    destruct (gt (measureText (line ++ [c])) maxWidth) eqn:Hwide;
      [case_bool_decide as Hn|]; cbn [andb].
    + assert (Hline : line <> []) by by apply Hpos.
      case_bool_decide as Hbreak.
      * exists [line]. cbn [fst snd]. rewrite textLines_snoc.
        repeat split; [repeat constructor; done|simpl; lia|done].
      * destruct (IH (S n) [c] (add y lineHeight) (S lineCount)
                     (ctx ++ [FillText fontMain line x y]))
          as (lines & Hlines & Hall & Hlast & Hne);
          [lia|done|simpl; lia|].
        exists (line :: lines). rewrite Hlines, textLines_snoc, <- app_assoc.
        repeat split; [by constructor|exact Hlast|].
        intros _. by apply Hne.
    + assert (Hline : line = []) by (apply H0; lia). subst line.
      destruct (IH (S n) ([] ++ [c]) y lineCount ctx)
        as (lines & Hlines & Hall & Hlast & Hne);
        [lia|done|simpl; lia|].
      exists lines. repeat split; try done.
      all: intros _; by apply Hne.
    + destruct (IH (S n) (line ++ [c]) y lineCount ctx)
        as (lines & Hlines & Hall & Hlast & Hne);
        [lia|intros _; by destruct line|by intros _|].
      exists lines. repeat split; try done.
      all: intros _; apply Hne; by destruct line.
Qed.

(** X16: of a caption that is not empty, no drawn line is empty, and
    every drawn line of two or more code units fits the width available
    (a single code unit is drawn however wide it is). *)
Theorem wrapText_lines_fit (text : jsstring) (y : number) :
  text <> [] ->
  Forall (fun l => l <> []
            /\ ((2 <= length l)%nat -> gt (measureText l) maxWidth = false))
         (textLines (wrapText measureText [] text x y maxWidth lineHeight)).
Proof.
  intros Htext. unfold wrapText.
  destruct (wrap_loop_fits text 0 [] y 0 [])
    as (lines & Hlines & Hall & Hlast & Hne); [done|lia|simpl; lia|].
  destruct (wrap_loop measureText x maxWidth lineHeight text 0 [] y 0 [])
    as [[line y'] ctx'].
  cbn [fst snd] in *.
  rewrite textLines_snoc, Hlines. cbn [app textLines omap list_omap].
  apply Forall_app. split; [exact Hall|].
  repeat constructor; [by apply Hne|exact Hlast].
Qed.

End WrapFacts.

Lemma wrapText_draws_a_prefix_witness :
  exists lines dropped,
    textLines (wrapText fullWidth [] (replicate 120 19968%N)
                        (num 60) (num 503) imageWidth (num 28))
    = textLines [] ++ lines
    /\ concat lines ++ dropped = replicate 120 19968%N
    /\ ((length lines < 6)%nat -> dropped = []).
Proof.
  apply (wrapText_draws_a_prefix fullWidth (num 60) imageWidth (num 28) []).
Defined.

Lemma wrapText_lines_fit_witness :
  replicate 120 19968%N <> []
  /\ Forall (fun l => l <> []
               /\ ((2 <= length l)%nat ->
                   gt (fullWidth l) imageWidth = false))
            (textLines (wrapText fullWidth [] (replicate 120 19968%N)
                                 (num 60) (num 503) imageWidth (num 28))).
Proof.
  assert (Hne : replicate 120 19968%N <> []) by discriminate.
  split; [exact Hne|].
  exact (wrapText_lines_fit fullWidth (num 60) imageWidth (num 28)
           (replicate 120 19968%N) (num 503) Hne).
Defined.

(** ** More on the CSV export *)

Lemma escapeQuotes_cons c s :
  escapeQuotes (c :: s)
  = if N.eqb c quote then quote :: quote :: escapeQuotes s
    else c :: escapeQuotes s.
Proof. reflexivity. Qed.

(** X17: doubling the quotes loses nothing: reading the pairs back as
    single quotes returns the caption, the escaped text contains no
    unpaired quote that could end the field early, and two different
    captions never give the same field. *)
Theorem escapeQuotes_round_trip (s : jsstring) :
  unescapeQuotes (escapeQuotes s) = s
  /\ loneQuotes (escapeQuotes s) = 0%nat
  /\ forall s', escapeQuotes s = escapeQuotes s' -> s = s'.
Proof.
  assert (Hround : forall t, unescapeQuotes (escapeQuotes t) = t).
  { induction t as [|c t IH]; [reflexivity|].
    rewrite escapeQuotes_cons. destruct (N.eqb c quote) eqn:Hc.
    - apply N.eqb_eq in Hc. subst c. cbn. by rewrite IH.
    - cbn [unescapeQuotes]. rewrite Hc. by rewrite IH. }
  split; [apply Hround|]. split.
  - induction s as [|c s IH]; [reflexivity|].
    rewrite escapeQuotes_cons. destruct (N.eqb c quote) eqn:Hc.
    + cbn. exact IH.
    + cbn [loneQuotes]. rewrite Hc. exact IH.
  - intros s' Heq. rewrite <- (Hround s), <- (Hround s'). by rewrite Heq.
Qed.

(** ** formatTime *)




Lemma toString_num (z : Z) : toString (num z) = decimal z.
Proof.
  unfold toString, num. change (this (Qc_of_Z z)) with (inject_Z z).
  by rewrite Qfloor_Z.
Qed.




(** ** utils/geminiService.ts : analyzeImage *)






(** ** App.tsx : the caption pass and the sketch pass *)

Section KeyedUpdates.
Context {K A V : Type} `{EqDecision K}.
Variable key : A -> K.
Variable upd : V -> A -> A.
Hypothesis key_upd : forall v a, key (upd v a) = key a.

Lemma keyed_fold_absent (jobs : list (K * V)) (a : A) :
  key a ∉ List.map fst jobs -> fold_left (keyedStep key upd) jobs a = a.
Proof.
  induction jobs as [|[j v] jobs IH]; [done|]. cbn [List.map fst fold_left].
  intros Hnot. apply not_elem_of_cons in Hnot as [Hne Hnot].
  unfold keyedStep at 2. cbn [fst snd]. rewrite decide_False by done.
  by apply IH.
Qed.

Lemma keyed_fold_present (jobs : list (K * V)) (a : A) (v : V) :
  NoDup (List.map fst jobs) -> (key a, v) ∈ jobs ->
  fold_left (keyedStep key upd) jobs a = upd v a.
Proof.
  induction jobs as [|[j w] jobs IH]; [by intros _ ?%elem_of_nil|].
  cbn [List.map fst fold_left]. intros [Hfresh Hnodup]%NoDup_cons Hin.
  unfold keyedStep at 2. cbn [fst snd].
  apply elem_of_cons in Hin as [[= <- <-] | Hin].
  - rewrite decide_True by done. apply keyed_fold_absent.
    by rewrite key_upd.
  - destruct (decide (key a = j)) as [<- | Hne]; [|by apply IH].
    exfalso. apply Hfresh.
    change (key a) with (fst (key a, v)). apply list_elem_of_fmap.
    by exists (key a, v).
Qed.

End KeyedUpdates.

Lemma analyzeImage_nonempty (svc : GeminiService) (base64Image : jsstring) :
  analyzeImage svc base64Image <> [].
Proof.
  unfold analyzeImage.
  destruct (clientAvailable svc); cbn [negb]; [|discriminate].
  destruct (keyMissing svc); [discriminate|]. cbv zeta.
  destruct (captionResponse svc _) as [[text|]|]; cbn [option_map];
    try discriminate.
  destruct (trim text); discriminate.
Qed.

Lemma processCaptionsQueue_pointwise (completed : list (jsstring * jsstring))
    (frames : list Keyframe) :
  processCaptionsQueue completed frames
  = List.map (fun f =>
                fold_left (keyedStep id (fun text g => spread g (captionOnly text)))
                          completed f) frames.
Proof.
  unfold processCaptionsQueue. revert frames.
  induction completed as [|[frameId text] completed IH]; intros frames.
  - cbn [fold_left]. symmetry. apply map_id.
  - cbn [fold_left]. rewrite IH. unfold updateFrame. rewrite map_map.
    reflexivity.
Qed.

Lemma distinct_ids_agree (frames : list Keyframe) (f g : Keyframe) :
  NoDup (List.map id frames) -> f ∈ frames -> g ∈ frames -> id f = id g ->
  f = g.
Proof.
  induction frames as [|h frames IH]; [by intros _ ?%elem_of_nil|].
  cbn [List.map]. intros [Hfresh Hnodup]%NoDup_cons Hf Hg Hid.
  apply elem_of_cons in Hf as [-> | Hf]; apply elem_of_cons in Hg as [-> | Hg].
  - done.
  - exfalso. apply Hfresh. rewrite Hid. apply list_elem_of_fmap. by exists g.
  - exfalso. apply Hfresh. rewrite <- Hid. apply list_elem_of_fmap.
    by exists f.
  - by apply IH.
Qed.

Lemma filter_ids_distinct (keep : Keyframe -> bool) (frames : list Keyframe) :
  NoDup (List.map id frames) -> NoDup (List.map id (List.filter keep frames)).
Proof.
  induction frames as [|h frames IH]; [done|].
  cbn [List.map List.filter]. intros [Hfresh Hnodup]%NoDup_cons.
  destruct (keep h); [|by apply IH]. cbn [List.map]. apply NoDup_cons.
  split; [|by apply IH]. intros Hin. apply Hfresh.
  apply list_elem_of_fmap in Hin as (g & Hid & Hg).
  apply list_elem_of_In, filter_In in Hg as [Hg _].
  apply list_elem_of_fmap. exists g. split; [done|]. by apply list_elem_of_In.
Qed.

Lemma captioned_has_caption (svc : GeminiService) (f : Keyframe) :
  needsCaption (captioned svc f) = false.
Proof.
  unfold captioned. destruct (needsCaption f) eqn:Hneeds; [|done].
  unfold needsCaption, spread, captionOnly. cbn.
  pose proof (analyzeImage_nonempty svc (originalUrl f)).
  by destruct (analyzeImage svc (originalUrl f)).
Qed.

Lemma captioned_need_no_caption (svc : GeminiService)
    (frames : list Keyframe) :
  framesNeedingCaption (List.map (captioned svc) frames) = [].
Proof.
  unfold framesNeedingCaption.
  induction frames as [|f frames IH]; [done|]. cbn [List.map List.filter].
  by rewrite captioned_has_caption.
Qed.

(** X20: the frames have distinct ids, no frame is added, removed or
    edited meanwhile, and the five workers' updates arrive in any order
    [completed].  Then the state after [processCaptionsQueue] does not
    depend on that order: every frame that lacked a caption carries the
    answer of [analyzeImage] for its own original image, every other frame
    is as it was, and no frame is left for the effect to queue again. *)
Theorem captions_any_completion_order (svc : GeminiService)
    (frames : list Keyframe) (completed : list (jsstring * jsstring)) :
  NoDup (List.map id frames) ->
  completed ≡ₚ captionJobs svc (framesNeedingCaption frames) ->
  processCaptionsQueue completed frames = List.map (captioned svc) frames
  /\ framesNeedingCaption (processCaptionsQueue completed frames) = [].
Proof.
  intros Hids Hperm.
  assert (Hkeys : List.map fst (captionJobs svc (framesNeedingCaption frames))
                  = List.map id (framesNeedingCaption frames)).
  { unfold captionJobs. rewrite map_map. reflexivity. }
  assert (Hnodup : NoDup (List.map fst completed)).
  { rewrite (Permutation_map fst Hperm), Hkeys.
    by apply filter_ids_distinct. }
  assert (Heq : processCaptionsQueue completed frames
                = List.map (captioned svc) frames).
  { rewrite processCaptionsQueue_pointwise. apply map_ext_in.
    intros f Hf%list_elem_of_In. unfold captioned.
    destruct (needsCaption f) eqn:Hneeds.
    - apply (keyed_fold_present id
               (fun text g => spread g (captionOnly text))); [done|done|].
      rewrite Hperm. unfold captionJobs.
      apply (list_elem_of_fmap
               (fun frame => (id frame, analyzeImage svc (originalUrl frame)))).
      exists f. split; [done|].
      apply list_elem_of_In, filter_In. split; [by apply list_elem_of_In|done].
    - apply (keyed_fold_absent id
               (fun text g => spread g (captionOnly text))).
      intros Hin. rewrite (Permutation_map fst Hperm), Hkeys in Hin.
      apply list_elem_of_fmap in Hin as (g & Hid & Hg).
      apply list_elem_of_In, filter_In in Hg as [Hg Hgneeds].
      apply list_elem_of_In in Hg.
      rewrite (distinct_ids_agree frames f g Hids Hf Hg Hid) in Hneeds.
      congruence. }
  split; [exact Heq|]. rewrite Heq. apply captioned_need_no_caption.
Qed.

Lemma captions_any_completion_order_witness :
  processCaptionsQueue [(lit "0.50", lit "two"); (lit "0.00", lit "one")]
                       threeFrames
  = List.map (captioned echoService) threeFrames
  /\ framesNeedingCaption
       (processCaptionsQueue [(lit "0.50", lit "two"); (lit "0.00", lit "one")]
                             threeFrames) = [].
Proof.
  apply (captions_any_completion_order echoService threeFrames).
  - by_compute.
  - by_compute.
Defined.

Lemma sketchUpdater_alter (index : nat) (sketchUrl : jsstring)
    (current : list Keyframe) :
  sketchUpdater index sketchUrl current
  = alter (asSketch sketchUrl) index current.
Proof.
  unfold sketchUpdater. apply list_eq. intros j.
  destruct (current !! index) as [f|] eqn:Hf.
  - rewrite list_lookup_insert, list_lookup_alter.
    pose proof (lookup_lt_Some _ _ _ Hf).
    destruct (decide (index = j)) as [<- | Hne].
    + rewrite decide_True by done. by rewrite Hf.
    + by rewrite decide_False by tauto.
  - rewrite list_lookup_alter.
    destruct (decide (index = j)) as [<- | Hne]; [by rewrite Hf|done].
Qed.

Lemma handleConvertToSketch_lookup (completed : list (nat * jsstring))
    (frames : list Keyframe) (i : nat) :
  handleConvertToSketch completed frames !! i
  = fold_left (keyedStep (fun _ => i) asSketch) completed <$> frames !! i.
Proof.
  unfold handleConvertToSketch. revert frames.
  induction completed as [|[j sketchUrl] completed IH]; intros frames.
  - cbn [fold_left]. by destruct (frames !! i).
  - cbn [fold_left]. rewrite IH, sketchUpdater_alter, list_lookup_alter.
    unfold keyedStep at 3. cbn [fst snd].
    destruct (decide (j = i)) as [-> | Hne]; destruct (frames !! i) as [f|];
      try done; cbn.
    + by rewrite decide_True.
    + by rewrite decide_False.
Qed.

Lemma sketchJobs_elem (svc : GeminiService) (frames : list Keyframe)
    (i : nat) (sketchUrl : jsstring) :
  (i, sketchUrl) ∈ sketchJobs svc frames
  <-> exists f, frames !! i = Some f /\ isSketch f = false
                /\ generateSketch svc (originalUrl f) = Some sketchUrl.
Proof.
  unfold sketchJobs. rewrite list_elem_of_omap. split.
  - intros ([j f] & Hin & Hjob).
    apply elem_of_lookup_imap in Hin as (j' & f' & [= -> ->] & Hf).
    destruct (isSketch f') eqn:Hsketch; [done|].
    destruct (generateSketch svc (originalUrl f')) as [url|] eqn:Hurl;
      [|done].
    cbn in Hjob. injection Hjob as -> ->. by exists f'.
  - intros (f & Hf & Hsketch & Hurl). exists (i, f). split.
    + by apply (elem_of_lookup_imap_2 (fun index frame => (index, frame))).
    + by rewrite Hsketch, Hurl.
Qed.

Lemma omap_keys_distinct {A B K : Type} (g : nat * A -> option B)
    (key : B -> K) (name : nat -> K) (l : list (nat * A)) :
  (forall i j, name i = name j -> i = j) ->
  (forall p q, g p = Some q -> key q = name p.1) ->
  NoDup (List.map fst l) -> NoDup (List.map key (omap g l)).
Proof.
  intros Hinj Hkey. induction l as [|p l IH]; [intros _; apply NoDup_nil_2|].
  cbn [List.map]. intros [Hfresh Hnodup]%NoDup_cons.
  change (omap g (p :: l))
    with (match g p with Some y => y :: omap g l | None => omap g l end).
  destruct (g p) as [q|] eqn:Hq; [|by apply IH].
  cbn [List.map]. apply NoDup_cons. split; [|by apply IH].
  intros Hin. apply Hfresh.
  apply list_elem_of_fmap in Hin as (q' & Hsame & Hq').
  apply list_elem_of_omap in Hq' as (p' & Hp' & Hgp').
  rewrite (Hkey p q Hq), (Hkey p' q' Hgp') in Hsame.
  rewrite (Hinj _ _ Hsame). apply list_elem_of_fmap. by exists p'.
Qed.

Lemma imap_index_distinct {A : Type} (l : list A) :
  NoDup (List.map fst (imap (fun index (x : A) => (index, x)) l)).
Proof.
  change (NoDup (fst <$> imap (fun index (x : A) => (index, x)) l)).
  rewrite fmap_imap.
  rewrite (imap_ext _ (fun index _ => index)) by done.
  rewrite (imap_seq_0 l (fun index => index)).
  rewrite list_fmap_id. apply NoDup_seq.
Qed.

Lemma sketchJobs_keys_distinct (svc : GeminiService)
    (frames : list Keyframe) :
  NoDup (List.map fst (sketchJobs svc frames)).
Proof.
  unfold sketchJobs.
  apply (omap_keys_distinct _ fst (fun index => index)).
  - intros i j Hij. exact Hij.
  - intros [index frame] q. destruct (isSketch frame); [done|].
    destruct (generateSketch svc (originalUrl frame)); [|done].
    by intros [= <-].
  - apply imap_index_distinct.
Qed.

(** X21: while no frame is added, removed or edited meanwhile, the state
    after [handleConvertToSketch] does not depend on the order in which
    the three workers' requests complete.  The list keeps its length; a
    frame that is already a sketch, or whose request fails, is left as it
    was; every other frame shows the sketch made from its own original
    image and is marked as a sketch, with its id, time, original image and
    caption unchanged. *)
Theorem sketches_any_completion_order (svc : GeminiService)
    (frames : list Keyframe) (completed : list (nat * jsstring)) :
  completed ≡ₚ sketchJobs svc frames ->
  handleConvertToSketch completed frames = List.map (sketched svc) frames
  /\ length (handleConvertToSketch completed frames) = length frames
  /\ forall i f, frames !! i = Some f ->
       exists g, handleConvertToSketch completed frames !! i = Some g
         /\ id g = id f /\ time g = time f
         /\ originalUrl g = originalUrl f /\ caption g = caption f
         /\ (isSketch f = true -> g = f)
         /\ (generateSketch svc (originalUrl f) = None -> g = f)
         /\ (forall sketchUrl,
               isSketch f = false ->
               generateSketch svc (originalUrl f) = Some sketchUrl ->
               imageUrl g = sketchUrl /\ isSketch g = true).
Proof.
  intros Hperm.
  assert (Hnodup : NoDup (List.map fst completed)).
  { rewrite (Permutation_map fst Hperm). apply sketchJobs_keys_distinct. }
  assert (Heq : handleConvertToSketch completed frames
                = List.map (sketched svc) frames).
  { apply list_eq. intros i. rewrite handleConvertToSketch_lookup.
    change (List.map (sketched svc) frames) with (sketched svc <$> frames).
    rewrite list_lookup_fmap.
    destruct (frames !! i) as [f|] eqn:Hf; [|done]. cbn. f_equal.
    unfold sketched. destruct (isSketch f) eqn:Hsketch.
    - apply (keyed_fold_absent (fun _ => i) asSketch).
      intros Hin. apply list_elem_of_fmap in Hin as ([j url] & Hj & Hin).
      cbn in Hj. subst j. rewrite Hperm in Hin.
      apply sketchJobs_elem in Hin as (f' & Hf' & Hsketch' & _). congruence.
    - destruct (generateSketch svc (originalUrl f)) as [url|] eqn:Hurl.
      + apply (keyed_fold_present (fun _ => i) asSketch); [done|done|].
        rewrite Hperm. apply sketchJobs_elem. by exists f.
      + apply (keyed_fold_absent (fun _ => i) asSketch).
        intros Hin. apply list_elem_of_fmap in Hin as ([j url] & Hj & Hin).
        cbn in Hj. subst j. rewrite Hperm in Hin.
        apply sketchJobs_elem in Hin as (f' & Hf' & _ & Hurl'). congruence. }
  split; [exact Heq|]. rewrite Heq. split; [apply length_map|].
  intros i f Hf. exists (sketched svc f). split.
  { change (List.map (sketched svc) frames) with (sketched svc <$> frames).
    by rewrite list_lookup_fmap, Hf. }
  unfold sketched.
  destruct (isSketch f) eqn:Hsketch;
    [|destruct (generateSketch svc (originalUrl f)) as [url|] eqn:Hurl];
    cbn; repeat split; try done; congruence.
Qed.

Lemma sketches_any_completion_order_witness :
  handleConvertToSketch
    [(1%nat, lit "data:image/png;base64,two");
     (0%nat, lit "data:image/png;base64,one")] threeFrames
  = List.map (sketched echoService) threeFrames.
Proof.
  apply (sketches_any_completion_order echoService threeFrames).
  by_compute.
Defined.

(** ** App.tsx : handleExportImages *)

Lemma to_uint_no_leading_zero (p : positive) (d : Decimal.uint) :
  Pos.to_uint p <> Decimal.D0 d.
Proof.
  intros Heq.
  pose proof (DecimalPos.Unsigned.to_of (Pos.to_uint p)) as Hnorm.
  rewrite DecimalPos.Unsigned.of_to in Hnorm. cbn [N.to_uint] in Hnorm.
  pose proof (DecimalPos.Unsigned.to_uint_nonzero p) as Hnz.
  unfold Decimal.unorm in Hnorm.
  destruct (Decimal.nzhead (Pos.to_uint p)) eqn:Hhead; try congruence.
  by apply DecimalFacts.nzhead_nonzero in Hhead.
Qed.

Lemma decimal_no_leading_zero (z : Z) :
  0 < z -> exists c rest, decimal z = c :: rest /\ c <> 48%N.
Proof.
  intros Hz. destruct z as [|p|p]; try lia. unfold decimal.
  cbn [Z.to_int NilZero.string_of_int].
  pose proof (to_uint_no_leading_zero p) as Hzero.
  pose proof (DecimalPos.Unsigned.to_uint_nonnil p) as Hnil.
  destruct (Pos.to_uint p) as [|d|d|d|d|d|d|d|d|d|d];
    cbn [NilZero.string_of_uint]; try rewrite lit_cons;
    try (eexists _, _; split; [reflexivity|by_compute]).
  - done.
  - by destruct (Hzero d).
Qed.

Lemma padStart3_inj (s t : jsstring) :
  s <> [] -> t <> [] -> head s <> Some 48%N -> head t <> Some 48%N ->
  padStart3 s = padStart3 t -> s = t.
Proof.
  unfold padStart3.
  destruct s as [|a [|b [|c s]]]; destruct t as [|a' [|b' [|c' t]]];
    cbn; rewrite ?Nat.sub_0_l; cbn; intros; simplify_eq; try done;
    congruence.
Qed.

Lemma shotFilename_inj (i j : nat) :
  shotFilename i = shotFilename j -> i = j.
Proof.
  unfold shotFilename. intros Heq.
  apply app_inv_head, app_inv_tail in Heq.
  destruct (decimal_no_leading_zero (Z.of_nat i + 1) ltac:(lia))
    as (c & s & Hi & Hc).
  destruct (decimal_no_leading_zero (Z.of_nat j + 1) ltac:(lia))
    as (c' & t & Hj & Hc').
  apply padStart3_inj in Heq.
  - apply decimal_inj in Heq. lia.
  - by rewrite Hi.
  - by rewrite Hj.
  - rewrite Hi. cbn. congruence.
  - rewrite Hj. cbn. congruence.
Qed.

Lemma handleExportImages_elem (frames : list Keyframe) (name : jsstring)
    (data : option jsstring) :
  (name, data) ∈ handleExportImages frames
  <-> exists index frame,
        frames !! index = Some frame /\ originalUrl frame <> []
        /\ name = shotFilename index
        /\ data = split 44%N (originalUrl frame) !! 1%nat.
Proof.
  unfold handleExportImages. rewrite list_elem_of_omap. split.
  - intros ([index frame] & Hin & Hentry).
    apply elem_of_lookup_imap in Hin as (index' & frame' & [= -> ->] & Hf).
    exists index', frame'. destruct (originalUrl frame') eqn:Hurl; [done|].
    cbv zeta in Hentry. rewrite toString_num, Nat2Z.inj_add in Hentry.
    apply (inj Some), pair_equal_spec in Hentry as [<- <-]. done.
  - intros (index & frame & Hf & Hurl & -> & ->). exists (index, frame). split.
    + by apply (elem_of_lookup_imap_2 (fun index frame => (index, frame))).
    + destruct (originalUrl frame) eqn:Hurl'; [done|]. cbv zeta.
      rewrite toString_num. unfold shotFilename.
      by rewrite Nat2Z.inj_add.
Qed.

(** X22: in the archive of original frames every frame that has an
    original image gets an entry of its own: the entry of the frame at
    position [index] is named after [index + 1] padded to at least three
    digits and holds what follows the first comma of the frame's data
    URL, and no two entries share a name, however many frames there
    are, so no entry replaces another. *)
Theorem export_images_one_entry_per_frame (frames : list Keyframe) :
  NoDup (List.map fst (handleExportImages frames))
  /\ (forall name data,
        (name, data) ∈ handleExportImages frames
        <-> exists index frame,
              frames !! index = Some frame /\ originalUrl frame <> []
              /\ name = shotFilename index
              /\ data = split 44%N (originalUrl frame) !! 1%nat)
  /\ forall index, (index < 999)%nat ->
       length (shotFilename index) = 12%nat.
Proof.
  split; [|split].
  - unfold handleExportImages.
    apply (omap_keys_distinct _ fst shotFilename).
    + apply shotFilename_inj.
    + intros [index frame] q. destruct (originalUrl frame); [done|].
      cbv zeta. intros Hq. apply (inj Some) in Hq. subst q. cbn [fst].
      by rewrite toString_num, Nat2Z.inj_add.
    + apply imap_index_distinct.
  - apply handleExportImages_elem.
  - intros index Hindex. unfold shotFilename. rewrite !length_app.
    assert (Hall : Forall (fun k => length (padStart3
                     (decimal (Z.of_nat k + 1))) = 3%nat) (seq 0 999)).
    { apply (bool_decide_unpack _). vm_compute. exact I. }
    rewrite Forall_forall in Hall.
    assert (Hpad : length (padStart3 (decimal (Z.of_nat index + 1)))
                   = 3%nat).
    { apply Hall, elem_of_seq. lia. }
    rewrite Hpad. reflexivity.
Qed.
